(** * react-native-interview: service-layer bookkeeping, verified

    A shallow embedding of the repository's stateful TypeScript modules:

    - [TodoContext]   : src/context/TodoContext.tsx (the todo list reducer);
    - [PhonePeService]: src/services/payment-gateway/PhonePeService.ts;
    - [JsMap]         : the ECMAScript [Map] the services keep their tables in;
    - [ServerSentEventsService] and [WebSocketService]:
      src/services/client-server-communication/.

    Third-party libraries (react-native-sse, socket.io-client, React Native's
    Linking) are the environment: their objects are records holding the
    fields the services read, and their reactions are oracles the theorems
    quantify over. *)

From Stdlib Require Import QArith Qround.
From stdpp Require Import gmap strings list fin_maps.

Local Open Scope string_scope.
Local Open Scope list_scope.

(* ===================================================================== *)
(** ** TodoContext.tsx *)
(* ===================================================================== *)

Module TodoContext.

(** interface Todo { id: string; text: string; completed: boolean } *)
Record Todo := mkTodo { id : string; text : string; completed : bool }.

(** [setTodos(prevTodos => prevTodos.map(todo =>
       todo.id === id ? { ...todo, completed: !todo.completed } : todo))].
    The function below is the updater handed to [setTodos]; the argument
    is the todo list React holds. *)
Definition toggleTodo (id0 : string) (prevTodos : list Todo) : list Todo :=
  map (fun todo =>
         if String.eqb (id todo) id0
         then {| id := id todo; text := text todo;
                 completed := negb (completed todo) |}
         else todo)
      prevTodos.

Example toggleTodo_sample :
  toggleTodo "b" [mkTodo "a" "Learn React Native" false;
                  mkTodo "b" "Build a Todo App" true;
                  mkTodo "b" "twin" false]
  = [mkTodo "a" "Learn React Native" false;
     mkTodo "b" "Build a Todo App" false;
     mkTodo "b" "twin" true].
Proof. reflexivity. Qed.

Lemma toggleTodo_lookup (id0 : string) (todos : list Todo) (n : nat) :
  toggleTodo id0 todos !! n =
  (λ todo, if String.eqb (id todo) id0
           then mkTodo (id todo) (text todo) (negb (completed todo))
           else todo) <$> todos !! n.
Proof. unfold toggleTodo. apply list_lookup_fmap. Qed.

(** C10. [toggleTodo id0] keeps the length and the order of the list (the
    todo at every position n is the image of the todo that was at n), keeps
    the id and the text of every todo, flips [completed] of exactly the
    todos whose id is [id0], and returns every other todo as it was. *)
Theorem toggleTodo_frame (id0 : string) (todos : list Todo) :
  length (toggleTodo id0 todos) = length todos ∧
  ∀ (n : nat) (todo : Todo), todos !! n = Some todo →
    ∃ todo', toggleTodo id0 todos !! n = Some todo' ∧
      id todo' = id todo ∧ text todo' = text todo ∧
      (id todo = id0 → completed todo' = negb (completed todo)) ∧
      (id todo ≠ id0 → todo' = todo).
Proof.
  split.
  - unfold toggleTodo. apply length_map.
  - intros n todo Hn. rewrite toggleTodo_lookup, Hn. simpl.
    destruct (String.eqb_spec (id todo) id0) as [Heq | Hne].
    + eexists. split; [reflexivity |]. simpl. repeat split; congruence.
    + exists todo. repeat split; congruence.
Qed.

Lemma toggleTodo_frame_witness :
  length (toggleTodo "b" [mkTodo "a" "x" false; mkTodo "b" "y" true]) = 2 ∧
  ∃ todo', toggleTodo "b" [mkTodo "a" "x" false; mkTodo "b" "y" true] !! 1
             = Some todo' ∧
    id todo' = "b" ∧ text todo' = "y" ∧
    ("b" = "b" → completed todo' = negb true) ∧
    ("b" ≠ "b" → todo' = mkTodo "b" "y" true).
Proof.
  destruct (toggleTodo_frame "b" [mkTodo "a" "x" false; mkTodo "b" "y" true])
    as [Hlen Hat].
  split; [exact Hlen |].
  exact (Hat 1 (mkTodo "b" "y" true) eq_refl).
Defined.

(** *** The other updaters of the provider *)

(** [String.prototype.trim] strips WhiteSpace and LineTerminator code units
    from both ends. The strings of the model are the strings whose code
    units are below 256; among those the stripped ones are TAB, LF, VT, FF,
    CR, SP and NBSP. *)
Definition is_js_space (c : Ascii.ascii) : bool :=
  let n := Ascii.N_of_ascii c in
  ((n =? 9) || (n =? 10) || (n =? 11) || (n =? 12) || (n =? 13)
   || (n =? 32) || (n =? 160))%N.

Fixpoint drop_spaces (l : list Ascii.ascii) : list Ascii.ascii :=
  match l with
  | c :: l' => if is_js_space c then drop_spaces l' else l
  | [] => []
  end.

Definition trim_list (l : list Ascii.ascii) : list Ascii.ascii :=
  reverse (drop_spaces (reverse (drop_spaces l))).

Definition js_trim (s : string) : string :=
  String.string_of_list_ascii (trim_list (String.list_ascii_of_string s)).

(** [!s] for a string: only the empty string is falsy. *)
Definition blank (s : string) : bool := String.eqb s "".

(** [addTodo(text)]; [newId] is what [uuid.v4().toString()] returns in the
    call. The result is the list after the update handed to [setTodos]. *)
Definition addTodo (newId text0 : string) (prevTodos : list Todo) : list Todo :=
  if blank (js_trim text0) then prevTodos
  else prevTodos ++ [mkTodo newId (js_trim text0) false].

(** [updateTodo(id, newText)] *)
Definition updateTodo (id0 newText : string) (prevTodos : list Todo) : list Todo :=
  if blank (js_trim newText) then prevTodos
  else map (λ todo, if String.eqb (id todo) id0
                    then mkTodo (id todo) (js_trim newText) (completed todo)
                    else todo)
           prevTodos.

(** [deleteTodo(id)] *)
Definition deleteTodo (id0 : string) (prevTodos : list Todo) : list Todo :=
  List.filter (λ todo, negb (String.eqb (id todo) id0)) prevTodos.

(** The initial state of the provider; the two ids are drawn by [uuid.v4]. *)
Definition initialTodos (id1 id2 : string) : list Todo :=
  [mkTodo id1 "Learn React Native" false; mkTodo id2 "Build a Todo App" true].

Example js_trim_sample : js_trim "  buy milk 	" = "buy milk".
Proof. reflexivity. Qed.

Example addTodo_blank_sample : addTodo "u1" "   " (initialTodos "a" "b") = initialTodos "a" "b".
Proof. reflexivity. Qed.

(** **** Facts about [trim] *)













Lemma ids_toggleTodo (id0 : string) (todos : list Todo) :
  id <$> toggleTodo id0 todos = id <$> todos.
Proof.
  unfold toggleTodo. induction todos as [| t todos IH]; simpl; [done |].
  f_equal; [| exact IH]. by destruct (String.eqb (id t) id0).
Qed.

Lemma ids_updateTodo (id0 newText : string) (todos : list Todo) :
  id <$> updateTodo id0 newText todos = id <$> todos.
Proof.
  unfold updateTodo. destruct (blank _); [done |].
  induction todos as [| t todos IH]; simpl; [done |].
  f_equal; [| exact IH]. by destruct (String.eqb (id t) id0).
Qed.

Lemma ids_deleteTodo (id0 : string) (todos : list Todo) :
  sublist (id <$> deleteTodo id0 todos) (id <$> todos).
Proof.
  unfold deleteTodo. induction todos as [| t todos IH]; simpl; [constructor |].
  destruct (negb _); simpl; [by apply sublist_skip | by apply sublist_cons].
Qed.


Lemma deleteTodo_absent (id0 : string) (todos : list Todo) :
  id0 ∉ (id <$> todos) → deleteTodo id0 todos = todos.
Proof.
  unfold deleteTodo. induction todos as [| t todos IH]; simpl; [done |].
  intros [Hne Hnot]%not_elem_of_cons.
  destruct (String.eqb_spec (id t) id0) as [Heq | _]; [congruence |].
  simpl. f_equal. by apply IH.
Qed.

(** **** Properties of the updaters *)







(** X3. Ids stay distinct: when no two todos share an id, this is still so
    after [toggleTodo], [updateTodo] and [deleteTodo], and after [addTodo]
    provided the id drawn for the new todo is not in use. *)
Theorem updaters_keep_ids_distinct (todos : list Todo) :
  NoDup (id <$> todos) →
  (∀ id0, NoDup (id <$> toggleTodo id0 todos)) ∧
  (∀ id0 newText, NoDup (id <$> updateTodo id0 newText todos)) ∧
  (∀ id0, NoDup (id <$> deleteTodo id0 todos)) ∧
  (∀ newId text0, newId ∉ (id <$> todos) →
                  NoDup (id <$> addTodo newId text0 todos)).
Proof.
  intros Hnd. repeat split.
  - intros id0. by rewrite ids_toggleTodo.
  - intros id0 newText. by rewrite ids_updateTodo.
  - intros id0. eapply sublist_NoDup; [exact Hnd | apply ids_deleteTodo].
  - intros newId text0 Hfresh. unfold addTodo.
    destruct (blank (js_trim text0)); [done |].
    rewrite fmap_app. apply NoDup_app. split; [done |].
    split; [| apply NoDup_singleton].
    intros x Hx Hx'%list_elem_of_singleton. simpl in Hx'. by subst.
Qed.

Lemma updaters_keep_ids_distinct_witness :
  NoDup (id <$> addTodo "u9" "task" (deleteTodo "a" (initialTodos "a" "b"))).
Proof.
  assert (H0 : NoDup (id <$> initialTodos "a" "b")).
  { simpl. apply NoDup_cons. split; [| apply NoDup_singleton].
    intros H%list_elem_of_singleton. discriminate. }
  destruct (updaters_keep_ids_distinct _ H0) as (_ & _ & Hdel & _).
  destruct (updaters_keep_ids_distinct _ (Hdel "a")) as (_ & _ & _ & Hadd).
  apply Hadd. simpl. intros H%list_elem_of_singleton. discriminate.
Defined.

(** X4. Toggling the same id twice gives back the list: [toggleTodo id0] is
    its own inverse. *)
Theorem toggleTodo_twice (id0 : string) (todos : list Todo) :
  toggleTodo id0 (toggleTodo id0 todos) = todos.
Proof.
  unfold toggleTodo. induction todos as [| [i t c] todos IH]; simpl; [done |].
  rewrite IH. f_equal.
  destruct (String.eqb i id0) eqn:E; simpl; rewrite E; [| done].
  by rewrite negb_involutive.
Qed.

(** X5. Adding a todo under an id that is not in use and then deleting that
    id gives back the list that was there before; deleting an id that is
    not in the list changes nothing. *)
Theorem deleteTodo_undoes_addTodo (newId text0 : string) (todos : list Todo) :
  newId ∉ (id <$> todos) →
  deleteTodo newId (addTodo newId text0 todos) = todos ∧
  deleteTodo newId todos = todos.
Proof.
  intros Hfresh. split; [| by apply deleteTodo_absent].
  unfold addTodo. destruct (blank (js_trim text0)); [by apply deleteTodo_absent |].
  unfold deleteTodo. rewrite List.filter_app. simpl.
  rewrite String.eqb_refl. simpl. rewrite app_nil_r.
  by apply deleteTodo_absent.
Qed.

Lemma deleteTodo_undoes_addTodo_witness :
  deleteTodo "u9" (addTodo "u9" "task" (initialTodos "a" "b")) = initialTodos "a" "b".
Proof.
  apply (deleteTodo_undoes_addTodo "u9" "task" (initialTodos "a" "b")).
  simpl. intros [H | H%list_elem_of_singleton]%elem_of_cons; discriminate.
Defined.



(** X7. The updaters do not interfere: a toggle and a text update commute
    (on the same or on different ids), and a deletion commutes with both. *)
Theorem updaters_commute (a b newText : string) (todos : list Todo) :
  toggleTodo a (updateTodo b newText todos)
    = updateTodo b newText (toggleTodo a todos) ∧
  deleteTodo a (toggleTodo b todos) = toggleTodo b (deleteTodo a todos) ∧
  deleteTodo a (updateTodo b newText todos)
    = updateTodo b newText (deleteTodo a todos).
Proof.
  repeat split.
  - unfold updateTodo. destruct (blank (js_trim newText)); [done |].
    unfold toggleTodo. rewrite !map_map. apply map_ext. intros [i t c]. simpl.
    destruct (String.eqb i a) eqn:Ea, (String.eqb i b) eqn:Eb; simpl;
      rewrite ?Ea, ?Eb; done.
  - unfold deleteTodo, toggleTodo.
    induction todos as [| [i t c] todos IH]; simpl; [done |].
    destruct (String.eqb i b) eqn:Eb; simpl;
      destruct (String.eqb i a) eqn:Ea; simpl; rewrite ?Eb, IH; done.
  - unfold updateTodo. destruct (blank (js_trim newText)); [done |].
    unfold deleteTodo.
    induction todos as [| [i t c] todos IH]; simpl; [done |].
    destruct (String.eqb i b) eqn:Eb; simpl;
      destruct (String.eqb i a) eqn:Ea; simpl; rewrite ?Eb, IH; done.
Qed.

(** *** The screens that call the updaters *)










End TodoContext.

(* ===================================================================== *)
(** ** PhonePeService.ts *)
(* ===================================================================== *)

Module PhonePeService.

(** How an awaited promise settles. A synchronous [throw] inside a [try]
    whose body awaits the call is the same control path as a rejection. *)
Inductive Settled (A : Type) : Type :=
| Fulfilled (a : A)
| Rejected.
Arguments Fulfilled {A} a.
Arguments Rejected {A}.

(** React Native's [Linking], as far as [openPhonePeApp] uses it. *)
Record Linking := {
  canOpenURL : string → Settled bool;
  openURL : string → Settled unit
}.

(** The calls made on [Linking], in program order. *)
Inductive LinkingCall :=
| CallCanOpenURL (url : string)
| CallOpenURL (url : string).

(** [const openPhonePeApp = async (redirectUrl) => { try { ... } catch { return false } }].
    The result is the value the promise resolves to, with the calls made. *)
Definition openPhonePeApp (L : Linking) (redirectUrl : string)
  : bool * list LinkingCall :=
  match canOpenURL L redirectUrl with
  | Fulfilled supported =>
      if supported then
        match openURL L redirectUrl with
        | Fulfilled _ => (true, [CallCanOpenURL redirectUrl; CallOpenURL redirectUrl])
        | Rejected => (false, [CallCanOpenURL redirectUrl; CallOpenURL redirectUrl])
        end
      else (false, [CallCanOpenURL redirectUrl])
  | Rejected => (false, [CallCanOpenURL redirectUrl])
  end.

(** 'SUCCESS' | 'PENDING' | 'FAILURE' | 'UNKNOWN' *)
Inductive TxStatus := SUCCESS | PENDING | FAILURE | UNKNOWN.

(** [const statuses = ['SUCCESS', 'PENDING', 'FAILURE']] *)
Definition statuses : list TxStatus := [SUCCESS; PENDING; FAILURE].

(** What happens inside the [try] block of
    [checkPhonePeTransactionStatusOnServer]: either a statement of the block
    raises (the place where the status request to the backend lives), or the
    block runs through and [Math.random()] yields [r]. The draw is an exact
    rational; [Math.random]'s contract is [0 <= r < 1]. *)
Inductive TryBlock :=
| Threw
| Drew (r : Q).

Definition random_in_range (b : TryBlock) : Prop :=
  match b with
  | Threw => True
  | Drew r => (0 <= r)%Q ∧ (r < 1)%Q
  end.

(** [arr[k]] for a number [k] that is an integer: [undefined] out of range. *)
Definition js_index {A : Type} (arr : list A) (k : Z) : option A :=
  if (k <? 0)%Z then None else arr !! Z.to_nat k.

(** [statuses[Math.floor(Math.random() * statuses.length)]], and ['UNKNOWN']
    from the [catch]. [None] stands for [undefined]. *)
Definition checkPhonePeTransactionStatusOnServer
    (transactionId : string) (b : TryBlock) : option TxStatus :=
  match b with
  | Drew r =>
      let randomStatus :=
        js_index statuses (Qfloor (r * inject_Z (Z.of_nat (length statuses)))) in
      randomStatus
  | Threw => Some UNKNOWN
  end.

Example check_status_low :
  checkPhonePeTransactionStatusOnServer "T1" (Drew (1 # 10)) = Some SUCCESS.
Proof. reflexivity. Qed.

Example check_status_high :
  checkPhonePeTransactionStatusOnServer "T1" (Drew (999 # 1000)) = Some FAILURE.
Proof. reflexivity. Qed.

Lemma floor_draw_range (r : Q) :
  (0 <= r)%Q → (r < 1)%Q → (0 ≤ Qfloor (r * inject_Z 3) < 3)%Z.
Proof.
  intros H0 H1. split.
  - change 0%Z with (Qfloor (inject_Z 0)).
    apply Qfloor_resp_le.
    change (inject_Z 0) with (0 * inject_Z 3)%Q.
    apply Qmult_le_compat_r; [exact H0 | discriminate].
  - assert (Hlt : (r * inject_Z 3 < inject_Z 3)%Q).
    { change (r * inject_Z 3 < 1 * inject_Z 3)%Q.
      apply Qmult_lt_compat_r; [reflexivity | exact H1]. }
    pose proof (Qfloor_le (r * inject_Z 3)) as Hfl.
    pose proof (Qle_lt_trans _ _ _ Hfl Hlt) as Hz.
    rewrite <- Zlt_Qlt in Hz. exact Hz.
Qed.

(** C7. Whatever the transaction id, the promise resolves to one of the four
    constructors of [TxStatus] (never to [undefined]), and the value is
    UNKNOWN exactly when the [try] block raised. *)
Theorem checkPhonePeTransactionStatusOnServer_total
    (transactionId : string) (b : TryBlock) :
  random_in_range b →
  ∃ st : TxStatus,
    checkPhonePeTransactionStatusOnServer transactionId b = Some st ∧
    (st = UNKNOWN ↔ b = Threw).
Proof.
  destruct b as [| r].
  - intros _. exists UNKNOWN. split; [reflexivity | tauto].
  - intros [H0 H1].
    destruct (floor_draw_range r H0 H1) as [Hlo Hhi].
    unfold checkPhonePeTransactionStatusOnServer, js_index.
    change (Z.of_nat (length statuses)) with 3%Z.
    set (k := Qfloor (r * inject_Z 3)) in *.
    destruct (Z.ltb_spec k 0) as [Hneg | _]; [lia |].
    assert (Hk : (Z.to_nat k < 3)%nat) by lia.
    destruct (Z.to_nat k) as [| [| [| n]]]; [| | | lia];
      eexists; (split; [reflexivity |]); split; discriminate.
Qed.

Lemma checkPhonePeTransactionStatusOnServer_total_witness :
  ∃ st : TxStatus,
    checkPhonePeTransactionStatusOnServer "TXN42" (Drew (1 # 2)) = Some st ∧
    (st = UNKNOWN ↔ Drew (1 # 2) = Threw).
Proof.
  apply (checkPhonePeTransactionStatusOnServer_total "TXN42" (Drew (1 # 2))).
  unfold random_in_range, Qle, Qlt. simpl. lia.
Defined.

(** C8. [openPhonePeApp] resolves to [true] exactly when [canOpenURL] reported
    the URL supported and the [openURL] call that followed went through; an
    unsupported URL gives [false] with no [openURL] call; a rejection of
    either step gives [false]. The promise never rejects: the result is a
    boolean in every case. *)
Theorem openPhonePeApp_outcomes (L : Linking) (redirectUrl : string) :
  (fst (openPhonePeApp L redirectUrl) = true ↔
     canOpenURL L redirectUrl = Fulfilled true ∧
     openURL L redirectUrl = Fulfilled tt) ∧
  (fst (openPhonePeApp L redirectUrl) = true →
     snd (openPhonePeApp L redirectUrl)
       = [CallCanOpenURL redirectUrl; CallOpenURL redirectUrl]) ∧
  (canOpenURL L redirectUrl = Fulfilled false →
     openPhonePeApp L redirectUrl = (false, [CallCanOpenURL redirectUrl])) ∧
  (canOpenURL L redirectUrl = Rejected ∨ openURL L redirectUrl = Rejected →
     fst (openPhonePeApp L redirectUrl) = false).
Proof.
  unfold openPhonePeApp.
  destruct (canOpenURL L redirectUrl) as [supported |];
    [destruct supported |];
    (destruct (openURL L redirectUrl) as [u |]; [destruct u |]); simpl;
    intuition congruence.
Qed.

Definition linking_installed : Linking :=
  {| canOpenURL := λ _, Fulfilled true; openURL := λ _, Fulfilled tt |}.

Definition linking_missing : Linking :=
  {| canOpenURL := λ _, Fulfilled false; openURL := λ _, Rejected |}.

Lemma openPhonePeApp_outcomes_witness :
  fst (openPhonePeApp linking_installed "phonepe://pay") = true ∧
  snd (openPhonePeApp linking_installed "phonepe://pay")
    = [CallCanOpenURL "phonepe://pay"; CallOpenURL "phonepe://pay"] ∧
  openPhonePeApp linking_missing "phonepe://pay"
    = (false, [CallCanOpenURL "phonepe://pay"]).
Proof.
  destruct (openPhonePeApp_outcomes linking_installed "phonepe://pay")
    as (Hiff & Hcalls & _ & _).
  destruct (openPhonePeApp_outcomes linking_missing "phonepe://pay")
    as (_ & _ & Hno & _).
  assert (Htrue : fst (openPhonePeApp linking_installed "phonepe://pay") = true)
    by (apply Hiff; split; reflexivity).
  split; [exact Htrue |].
  split; [exact (Hcalls Htrue) | apply Hno; reflexivity].
Defined.


(** *** Which status a draw gives *)




End PhonePeService.

(* ===================================================================== *)
(** ** ECMAScript [Map] *)
(* ===================================================================== *)

(** A [Map] keeps its records in insertion order in [[MapData]]. [delete]
    and [clear] empty a record in place (the slot stays), [set] overwrites the
    value of the record holding the key or appends a new record, and an
    iterator is an index into the list that re-reads its length at every
    step. Entries added while a [for...of] runs are therefore visited, and an
    entry deleted and set again moves behind the iterator's position. *)
Module JsMap.

Section WithValue.
Context {V : Type}.

Local Abbreviation MapData := (list (option (string * V))).

Fixpoint mget (k : string) (m : MapData) : option V :=
  match m with
  | [] => None
  | Some (k', v) :: m' => if String.eqb k' k then Some v else mget k m'
  | None :: m' => mget k m'
  end.

Fixpoint mset (k : string) (v : V) (m : MapData) : MapData :=
  match m with
  | [] => [Some (k, v)]
  | Some (k', v') :: m' =>
      if String.eqb k' k then Some (k', v) :: m'
      else Some (k', v') :: mset k v m'
  | None :: m' => None :: mset k v m'
  end.

Fixpoint mdelete (k : string) (m : MapData) : MapData :=
  match m with
  | [] => []
  | Some (k', v') :: m' =>
      if String.eqb k' k then None :: m'
      else Some (k', v') :: mdelete k m'
  | None :: m' => None :: mdelete k m'
  end.

Definition mclear (m : MapData) : MapData := (λ _, None) <$> m.

(** The records that are not emptied, in order. *)
Definition live (m : MapData) : list (string * V) := omap (λ e, e) m.
Definition keys (m : MapData) : list string := (live m).*1.
Definition values (m : MapData) : list V := (live m).*2.

Lemma live_app (m1 m2 : MapData) : live (m1 ++ m2) = live m1 ++ live m2.
Proof. apply omap_app. Qed.

Lemma keys_app (m1 m2 : MapData) : keys (m1 ++ m2) = keys m1 ++ keys m2.
Proof. unfold keys. rewrite live_app. apply fmap_app. Qed.

Lemma values_app (m1 m2 : MapData) : values (m1 ++ m2) = values m1 ++ values m2.
Proof. unfold values. rewrite live_app. apply fmap_app. Qed.

Lemma mget_Some_live (k : string) (v : V) (m : MapData) :
  mget k m = Some v → (k, v) ∈ live m.
Proof.
  induction m as [| [[k' v'] |] m IH]; simpl; intros H.
  - discriminate.
  - destruct (String.eqb_spec k' k) as [-> | Hne].
    + injection H as ->. apply list_elem_of_here.
    + apply list_elem_of_further. auto.
  - auto.
Qed.

Lemma mget_None_keys (k : string) (m : MapData) :
  mget k m = None ↔ k ∉ keys m.
Proof.
  unfold keys, live. induction m as [| [[k' v'] |] m IH]; simpl.
  - split; [intros _; apply not_elem_of_nil | reflexivity].
  - destruct (String.eqb_spec k' k) as [-> | Hne].
    + split; [discriminate |]. intros H. exfalso. apply H. apply list_elem_of_here.
    + rewrite IH, not_elem_of_cons.
      split; [intros H; split; [intros ->; by apply Hne | exact H] |].
      by intros [_ H].
  - exact IH.
Qed.

Lemma mget_app_l (k : string) (m1 m2 : MapData) (v : V) :
  mget k m1 = Some v → mget k (m1 ++ m2) = Some v.
Proof.
  induction m1 as [| [[k' v'] |] m1 IH]; simpl; intros H.
  - discriminate.
  - destruct (String.eqb k' k); auto.
  - auto.
Qed.


Lemma mset_absent (k : string) (v : V) (m : MapData) :
  mget k m = None → mset k v m = m ++ [Some (k, v)].
Proof.
  induction m as [| [[k' v'] |] m IH]; simpl; intros H.
  - reflexivity.
  - destruct (String.eqb k' k); [discriminate |]. by rewrite IH.
  - by rewrite IH.
Qed.

Lemma mget_mset_eq (k : string) (v : V) (m : MapData) :
  mget k (mset k v m) = Some v.
Proof.
  induction m as [| [[k' v'] |] m IH]; simpl.
  - by rewrite String.eqb_refl.
  - destruct (String.eqb k' k) eqn:E; simpl; rewrite E; auto.
  - exact IH.
Qed.

Lemma mget_mset_ne (k k0 : string) (v : V) (m : MapData) :
  k ≠ k0 → mget k0 (mset k v m) = mget k0 m.
Proof.
  intros Hne. induction m as [| [[k' v'] |] m IH]; simpl.
  - destruct (String.eqb_spec k k0); [contradiction | reflexivity].
  - destruct (String.eqb_spec k' k) as [-> | Hk]; simpl.
    + destruct (String.eqb_spec k k0); [contradiction | reflexivity].
    + by rewrite IH.
  - exact IH.
Qed.

Lemma mdelete_absent (k : string) (m : MapData) :
  mget k m = None → mdelete k m = m.
Proof.
  induction m as [| [[k' v'] |] m IH]; simpl; intros H.
  - reflexivity.
  - destruct (String.eqb k' k); [discriminate |]. by rewrite IH.
  - by rewrite IH.
Qed.

Lemma mget_mdelete_ne (k k0 : string) (m : MapData) :
  k ≠ k0 → mget k0 (mdelete k m) = mget k0 m.
Proof.
  intros Hne. induction m as [| [[k' v'] |] m IH]; simpl.
  - reflexivity.
  - destruct (String.eqb_spec k' k) as [-> | Hk]; simpl.
    + destruct (String.eqb_spec k k0); [contradiction | reflexivity].
    + by rewrite IH.
  - exact IH.
Qed.

Lemma mget_mdelete_eq (k : string) (m : MapData) :
  NoDup (keys m) → mget k (mdelete k m) = None.
Proof.
  unfold keys, live. induction m as [| [[k' v'] |] m IH]; simpl; intros Hnd.
  - reflexivity.
  - apply NoDup_cons in Hnd as [Hnotin Hnd].
    destruct (String.eqb_spec k' k) as [-> | Hk]; simpl.
    + by apply mget_None_keys.
    + destruct (String.eqb_spec k' k); [contradiction | auto].
  - auto.
Qed.

Lemma length_mdelete (k : string) (m : MapData) :
  length (mdelete k m) = length m.
Proof.
  induction m as [| [[k' v'] |] m IH]; simpl; [done | | by rewrite IH].
  destruct (String.eqb k' k); simpl; [done | by rewrite IH].
Qed.

(** Deleting the key of the record at a known position empties that slot,
    provided no earlier record holds the key. *)
Lemma mdelete_at (k : string) (v : V) (pre post : MapData) :
  mget k pre = None →
  mdelete k (pre ++ Some (k, v) :: post) = pre ++ None :: post.
Proof.
  induction pre as [| [[k' v'] |] pre IH]; simpl; intros H.
  - by rewrite String.eqb_refl.
  - destruct (String.eqb k' k); [discriminate |]. by rewrite IH.
  - by rewrite IH.
Qed.

Lemma live_mdelete_sublist (k : string) (m : MapData) :
  sublist (live (mdelete k m)) (live m).
Proof.
  unfold live. induction m as [| [[k' v'] |] m IH]; simpl.
  - constructor.
  - destruct (String.eqb k' k); simpl.
    + by apply sublist_cons.
    + by apply sublist_skip.
  - exact IH.
Qed.

Lemma live_mclear (m : MapData) : live (mclear m) = [].
Proof. unfold live, mclear. induction m as [| e m IH]; simpl; auto. Qed.

Lemma mget_mclear (k : string) (m : MapData) : mget k (mclear m) = None.
Proof. unfold mclear. induction m as [| e m IH]; simpl; auto. Qed.

Lemma lookup_live (m : MapData) (i : nat) (k : string) (v : V) :
  m !! i = Some (Some (k, v)) → (k, v) ∈ live m.
Proof.
  intros H. unfold live. apply list_elem_of_omap.
  exists (Some (k, v)). split; [| reflexivity].
  apply list_elem_of_lookup. eauto.
Qed.

Lemma mget_of_entry (k : string) (v : V) (m : MapData) :
  NoDup (keys m) → Some (k, v) ∈ m → mget k m = Some v.
Proof.
  unfold keys, live. induction m as [| [[k' v'] |] m IH]; simpl; intros Hnd Hin.
  - by apply elem_of_nil in Hin.
  - apply NoDup_cons in Hnd as [Hnotin Hnd].
    apply elem_of_cons in Hin as [Heq | Hin].
    + injection Heq as <- <-. by rewrite String.eqb_refl.
    + destruct (String.eqb_spec k' k) as [-> | Hne]; [| auto].
      exfalso. apply Hnotin. apply list_elem_of_fmap. exists (k, v).
      split; [reflexivity |]. apply list_elem_of_omap. eauto.
  - apply elem_of_cons in Hin as [Heq | Hin]; [discriminate | auto].
Qed.

Lemma entry_of_mget (k : string) (v : V) (m : MapData) :
  mget k m = Some v → Some (k, v) ∈ m.
Proof.
  induction m as [| [[k' v'] |] m IH]; simpl; intros H.
  - discriminate.
  - destruct (String.eqb_spec k' k) as [-> | Hne].
    + injection H as ->. apply list_elem_of_here.
    + apply list_elem_of_further. auto.
  - apply list_elem_of_further. auto.
Qed.

End WithValue.

Example mset_moves_behind_iterator :
  mset "a" 7 (mdelete "a" [Some ("a", 1); Some ("b", 2)])
  = [None; Some ("b", 2); Some ("a", 7)].
Proof. reflexivity. Qed.

End JsMap.

(* ===================================================================== *)
(** ** ServerSentEventsService.ts *)
(* ===================================================================== *)

Module ServerSentEventsService.
Import JsMap.

(** *** react-native-sse's EventSource, as the service sees it *)

(** [EventSource.CONNECTING], [EventSource.OPEN], [EventSource.CLOSED]
    (and [enum ConnectionState] of the service file). *)
Definition CONNECTING : Z := 0.
Definition OPEN : Z := 1.
Definition CLOSED : Z := 2.

(** Listener functions are compared by identity ([l.listener === listener]).
    A caller's function is named by a number; the two arrow functions that
    [connect] creates for logging are closures over the connection id. *)
Inductive Listener :=
| UserListener (fn : nat)
| OpenLogger (id : string)
| ErrorLogger (id : string).

#[global] Instance Listener_eq_dec : EqDecision Listener.
Proof. solve_decision. Defined.

(** [EventSourceInit]: the options object handed to the constructor. *)
Record EventSourceInit := { headers : list (string * string) }.

(** An EventSource object: what it was constructed with, its [readyState],
    and the [(type, listener)] pairs attached with [addEventListener], in
    the order of the calls. *)
Record EventSource := mkEventSource {
  es_url : string;
  es_options : EventSourceInit;
  readyState : Z;
  es_listeners : list (string * Listener)
}.

(** [new EventSource(url, options)] starts out connecting, with no listener. *)
Definition es_new (url : string) (options : EventSourceInit) : EventSource :=
  mkEventSource url options CONNECTING [].

Definition es_addEventListener (type : string) (listener : Listener)
    (es : EventSource) : EventSource :=
  mkEventSource (es_url es) (es_options es) (readyState es)
                (es_listeners es ++ [(type, listener)]).

Definition same_listener (type : string) (listener : Listener)
    (l : string * Listener) : bool :=
  String.eqb (fst l) type && bool_decide (snd l = listener).

Definition es_removeEventListener (type : string) (listener : Listener)
    (es : EventSource) : EventSource :=
  mkEventSource (es_url es) (es_options es) (readyState es)
    (List.filter (λ l, negb (same_listener type listener l)) (es_listeners es)).

Definition es_close (es : EventSource) : EventSource :=
  mkEventSource (es_url es) (es_options es) CLOSED (es_listeners es).

(** *** The service *)

(** The value type of [connectionParams]: [{ url, options }]. *)
Record ConnectionParams := mkParams { url : string; options : EventSourceInit }.

(** The three private maps, and the EventSource objects that exist. An
    EventSource is referred to by its address in [heap]; [eventSources] maps a
    connection id to an address. Only the iteration order of [eventSources]
    is ever observed, so the other two maps are finite maps. *)
Record Service := mkService {
  eventSources : list (option (string * nat));
  eventListeners : gmap string (list (string * Listener));
  connectionParams : gmap string ConnectionParams;
  heap : list EventSource
}.

(** The state after the constructor. *)
Definition initial : Service := mkService [] ∅ ∅ [].

(** [public close(id)] *)
Definition close (id : string) (s : Service) : Service :=
  match mget id (eventSources s) with
  | Some eventSource =>
      mkService (mdelete id (eventSources s))
                (eventListeners s)
                (connectionParams s)
                (alter es_close eventSource (heap s))
  | None => s
  end.

(** [public connect(id, url, options = {})]: the returned EventSource (its
    address) and the state after the call. *)
Definition connect (id : string) (url0 : string) (options0 : EventSourceInit)
    (s : Service) : nat * Service :=
  (* this.close(id) *)
  let s1 := close id s in
  (* this.connectionParams.set(id, { url, options }) *)
  let params := <[id := mkParams url0 options0]> (connectionParams s1) in
  (* const eventSource = new EventSource(url, options) *)
  let eventSource := length (heap s1) in
  let heap1 := heap s1 ++ [es_new url0 options0] in
  (* this.eventSources.set(id, eventSource) *)
  let sources := mset id eventSource (eventSources s1) in
  (* this.eventListeners.set(id, []) *)
  let listeners := <[id := []]> (eventListeners s1) in
  (* eventSource.addEventListener('open', ...); ('error', ...) *)
  let heap2 := alter (es_addEventListener "open" (OpenLogger id)) eventSource heap1 in
  let heap3 := alter (es_addEventListener "error" (ErrorLogger id)) eventSource heap2 in
  (* const existingListeners = this.eventListeners.get(id) || [] *)
  let existingListeners := default [] (listeners !! id) in
  (* existingListeners.forEach(({type, listener}) => eventSource.addEventListener(type, listener)) *)
  let heap4 :=
    foldl (λ h l, alter (es_addEventListener (fst l) (snd l)) eventSource h)
          heap3 existingListeners in
  (eventSource, mkService sources listeners params heap4).

(** [public addListener(id, type, listener)] *)
Definition addListener (id type : string) (listener : Listener) (s : Service)
  : Service :=
  match mget id (eventSources s) with
  | None => s
  | Some eventSource =>
      let heap1 := alter (es_addEventListener type listener) eventSource (heap s) in
      let listeners := default [] (eventListeners s !! id) in
      if existsb (same_listener type listener) listeners
      then mkService (eventSources s) (eventListeners s) (connectionParams s) heap1
      else mkService (eventSources s)
                     (<[id := listeners ++ [(type, listener)]]> (eventListeners s))
                     (connectionParams s) heap1
  end.

(** [public removeListener(id, type, listener)] *)
Definition removeListener (id type : string) (listener : Listener) (s : Service)
  : Service :=
  match mget id (eventSources s) with
  | None => s
  | Some eventSource =>
      let heap1 := alter (es_removeEventListener type listener) eventSource (heap s) in
      let listeners := default [] (eventListeners s !! id) in
      let updatedListeners :=
        List.filter (λ l, negb (same_listener type listener l)) listeners in
      mkService (eventSources s) (<[id := updatedListeners]> (eventListeners s))
                (connectionParams s) heap1
  end.

(** [public reconnect(id)] *)
Definition reconnect (id : string) (s : Service) : Service :=
  match connectionParams s !! id with
  | None => s
  | Some params => snd (connect id (url params) (options params) s)
  end.

(** [private getConnectionStateString(readyState)] *)
Definition getConnectionStateString (readyState0 : Z) : string :=
  if (readyState0 =? CONNECTING)%Z then "connecting"
  else if (readyState0 =? OPEN)%Z then "open"
  else if (readyState0 =? CLOSED)%Z then "closed"
  else "unknown".

(** [public getConnectionState(id)]; [None] is [null]. *)
Definition getConnectionState (id : string) (s : Service) : option string :=
  match mget id (eventSources s) with
  | None => None
  | Some eventSource =>
      getConnectionStateString ∘ readyState <$> heap s !! eventSource
  end.

(** [for (const [id, eventSource] of this.eventSources.entries()) body]: the
    iterator's index walks [[MapData]], whose length is read again at each
    step. [None] when the fuel is used up before the iterator is done. *)
Fixpoint for_of_entries (fuel index : nat)
    (body : string → nat → Service → Service) (s : Service) : option Service :=
  match fuel with
  | O => None
  | S fuel' =>
      match eventSources s !! index with
      | None => Some s
      | Some None => for_of_entries fuel' (S index) body s
      | Some (Some (id, eventSource)) =>
          for_of_entries fuel' (S index) body (body id eventSource s)
      end
  end.

(** The body of the loop in [reconnectAllIfNeeded]. *)
Definition reconnect_if_closed (id : string) (eventSource : nat) (s : Service)
  : Service :=
  match heap s !! eventSource with
  | Some es =>
      if (readyState es =? CLOSED)%Z then
        match connectionParams s !! id with
        | Some params => snd (connect id (url params) (options params) s)
        | None => s
        end
      else s
  | None => s
  end.

(** [private reconnectAllIfNeeded()] *)
Definition reconnectAllIfNeeded_fuel (fuel : nat) (s : Service) : option Service :=
  for_of_entries fuel 0 reconnect_if_closed s.

Definition reconnectAllIfNeeded (s : Service) : option Service :=
  reconnectAllIfNeeded_fuel (2 * length (eventSources s) + 1) s.

(** [public closeAll()] *)
Definition closeAll (s : Service) : option Service :=
  s1 ← for_of_entries (length (eventSources s) + 1) 0 (λ id _ s0, close id s0) s;
  Some (mkService (mclear (eventSources s1)) ∅ ∅ (heap s1)).

(** React Native's [AppStateStatus]. *)
Inductive AppStateStatus := active | background | inactive | unknown | extension.

(** [cleanup()] is [closeAll()] followed by the removal of the two
    subscriptions below, and [pauseAll()] is never called: neither adds a
    state change of its own. *)

(** The callback [setupAppStateListener] registers. *)
Definition onAppStateChange (nextAppState : AppStateStatus) (s : Service)
  : option Service :=
  match nextAppState with
  | active => reconnectAllIfNeeded s
  | _ => Some s
  end.

(** NetInfo's state: both fields are [boolean | null]. *)
Record NetInfoState := {
  isConnected : option bool;
  isInternetReachable : option bool
}.

Definition truthy (b : option bool) : bool := default false b.

(** The callback [setupNetworkListener] registers. *)
Definition onNetInfoChange (state : NetInfoState) (s : Service) : option Service :=
  if truthy (isConnected state) && truthy (isInternetReachable state)
  then reconnectAllIfNeeded s
  else Some s.

(** The library moving an EventSource to another [readyState]. *)
Definition lib_setReadyState (eventSource : nat) (rs : Z) (s : Service) : Service :=
  mkService (eventSources s) (eventListeners s) (connectionParams s)
    (alter (λ es, mkEventSource (es_url es) (es_options es) rs (es_listeners es))
           eventSource (heap s)).

(** *** A session: connect, listen, lose the connection, reconnect *)

Definition opts0 : EventSourceInit := {| headers := [("Accept", "text/event-stream")] |}.

Definition session_connected : Service :=
  addListener "notifications" "message" (UserListener 1)
    (snd (connect "notifications" "https://example.test/sse" opts0 initial)).

Example session_connected_listeners :
  es_listeners <$> heap session_connected !! 0
  = Some [("open", OpenLogger "notifications");
          ("error", ErrorLogger "notifications");
          ("message", UserListener 1)]
  ∧ eventListeners session_connected !! "notifications"
    = Some [("message", UserListener 1)].
Proof. split; reflexivity. Qed.


(** *** Well-formed states *)

(** What every state the service can be in satisfies: [eventSources] holds a
    key at most once (it is a [Map]), two ids never share an EventSource, and
    every tracked address is that of an object that exists. *)
Definition wf (s : Service) : Prop :=
  NoDup (keys (eventSources s)) ∧
  NoDup (values (eventSources s)) ∧
  Forall (λ r, r < length (heap s)) (values (eventSources s)).

Lemma wf_initial : wf initial.
Proof. repeat split; simpl; constructor. Qed.

Lemma wf_entry_in_heap (s : Service) (id : string) (r : nat) :
  wf s → Some (id, r) ∈ eventSources s → r < length (heap s).
Proof.
  intros (_ & _ & Hall) Hin.
  rewrite Forall_forall in Hall. apply Hall.
  unfold values. apply list_elem_of_fmap. exists (id, r). split; [done |].
  unfold live. apply list_elem_of_omap. eauto.
Qed.

Lemma close_eventSources (id : string) (s : Service) :
  eventSources (close id s) = mdelete id (eventSources s).
Proof.
  unfold close. destruct (mget id (eventSources s)) eqn:E; simpl; [done |].
  by rewrite mdelete_absent.
Qed.

Lemma close_eventListeners (id : string) (s : Service) :
  eventListeners (close id s) = eventListeners s.
Proof. unfold close. by destruct (mget id (eventSources s)). Qed.

Lemma close_connectionParams (id : string) (s : Service) :
  connectionParams (close id s) = connectionParams s.
Proof. unfold close. by destruct (mget id (eventSources s)). Qed.

Lemma close_heap_length (id : string) (s : Service) :
  length (heap (close id s)) = length (heap s).
Proof.
  unfold close. destruct (mget id (eventSources s)); simpl; [| done].
  apply length_alter.
Qed.

Lemma close_heap_other (id : string) (s : Service) (r r' : nat) :
  mget id (eventSources s) = Some r → r' ≠ r →
  heap (close id s) !! r' = heap s !! r'.
Proof.
  intros Hget Hne. unfold close. rewrite Hget. simpl.
  by apply list_lookup_alter_ne.
Qed.

Lemma close_untracked (id : string) (s : Service) :
  mget id (eventSources s) = None → close id s = s.
Proof. intros H. unfold close. by rewrite H. Qed.


Lemma alter_fixpoint {A : Type} (f : A → A) (l : list A) (i : nat) (x : A) :
  l !! i = Some x → f x = x → alter f i l = l.
Proof.
  revert i. induction l as [| y l IH]; intros [| i]; simpl; try done.
  - intros [= ->] ->. reflexivity.
  - intros H Hf. f_equal. by apply IH.
Qed.


Lemma close_wf (id : string) (s : Service) : wf s → wf (close id s).
Proof.
  intros (Hk & Hv & Hall). unfold wf.
  rewrite close_eventSources, close_heap_length.
  assert (Hsub : sublist (live (mdelete id (eventSources s))) (live (eventSources s)))
    by apply live_mdelete_sublist.
  repeat split.
  - eapply sublist_NoDup; [exact Hk |]. unfold keys. by apply fmap_sublist.
  - eapply sublist_NoDup; [exact Hv |]. unfold values. by apply fmap_sublist.
  - rewrite Forall_forall in *. intros r Hr. apply Hall.
    eapply elem_of_sublist; [exact Hr |]. unfold values. by apply fmap_sublist.
Qed.

(** The EventSource [connect id url options] creates, once [connect] is
    through with it. *)
Definition connected_source (id url0 : string) (options0 : EventSourceInit)
  : EventSource :=
  mkEventSource url0 options0 CONNECTING
    [("open", OpenLogger id); ("error", ErrorLogger id)].

Lemma connect_fst (id url0 : string) (options0 : EventSourceInit) (s : Service) :
  fst (connect id url0 options0 s) = length (heap s).
Proof. unfold connect. simpl. apply close_heap_length. Qed.

Lemma connect_eventListeners (id url0 : string) (options0 : EventSourceInit) (s : Service) :
  eventListeners (snd (connect id url0 options0 s)) = <[id := []]> (eventListeners s).
Proof. unfold connect. simpl. by rewrite close_eventListeners. Qed.

Lemma connect_connectionParams (id url0 : string) (options0 : EventSourceInit) (s : Service) :
  connectionParams (snd (connect id url0 options0 s))
  = <[id := mkParams url0 options0]> (connectionParams s).
Proof. unfold connect. simpl. by rewrite close_connectionParams. Qed.

Lemma connect_heap (id url0 : string) (options0 : EventSourceInit) (s : Service) :
  heap (snd (connect id url0 options0 s))
  = heap (close id s) ++ [connected_source id url0 options0].
Proof.
  unfold connect. simpl. rewrite lookup_insert_eq. simpl.
  rewrite !alter_app_r_alt by lia. rewrite Nat.sub_diag. reflexivity.
Qed.

Lemma connect_eventSources_raw (id url0 : string) (options0 : EventSourceInit) (s : Service) :
  eventSources (snd (connect id url0 options0 s))
  = mset id (length (heap s)) (mdelete id (eventSources s)).
Proof. unfold connect. simpl. by rewrite close_eventSources, close_heap_length. Qed.

Lemma connect_eventSources (id url0 : string) (options0 : EventSourceInit) (s : Service) :
  wf s →
  eventSources (snd (connect id url0 options0 s))
  = mdelete id (eventSources s) ++ [Some (id, length (heap s))].
Proof.
  intros (Hk & _). rewrite connect_eventSources_raw.
  apply mset_absent. by apply mget_mdelete_eq.
Qed.

Lemma connect_mget_eq (id url0 : string) (options0 : EventSourceInit) (s : Service) :
  mget id (eventSources (snd (connect id url0 options0 s))) = Some (length (heap s)).
Proof. rewrite connect_eventSources_raw. apply mget_mset_eq. Qed.

Lemma connect_mget_ne (id id' url0 : string) (options0 : EventSourceInit) (s : Service) :
  id ≠ id' →
  mget id' (eventSources (snd (connect id url0 options0 s)))
  = mget id' (eventSources s).
Proof.
  intros Hne. rewrite connect_eventSources_raw.
  rewrite mget_mset_ne by done. by apply mget_mdelete_ne.
Qed.

Lemma connect_wf (id url0 : string) (options0 : EventSourceInit) (s : Service) :
  wf s → wf (snd (connect id url0 options0 s)).
Proof.
  intros Hwf. pose proof (close_wf id s Hwf) as (Hk & Hv & Hall).
  rewrite close_eventSources, close_heap_length in *.
  unfold wf. rewrite connect_eventSources by done.
  rewrite connect_heap, length_app, close_heap_length. simpl.
  rewrite keys_app, values_app. simpl.
  repeat split.
  - apply NoDup_app. split; [done |]. split; [| apply NoDup_singleton].
    intros k Hin Heq%list_elem_of_singleton. simpl in Heq. subst k.
    revert Hin. apply mget_None_keys. apply mget_mdelete_eq. apply Hwf.
  - apply NoDup_app. split; [done |]. split; [| apply NoDup_singleton].
    intros r Hin Heq%list_elem_of_singleton. simpl in Heq. subst r.
    rewrite Forall_forall in Hall. apply Hall in Hin. lia.
  - apply Forall_app. split.
    + eapply Forall_impl; [exact Hall |]. simpl. intros; lia.
    + apply Forall_singleton. simpl. lia.
Qed.

Lemma connect_source (id url0 : string) (options0 : EventSourceInit) (s : Service) :
  heap (snd (connect id url0 options0 s)) !! fst (connect id url0 options0 s)
  = Some (connected_source id url0 options0).
Proof.
  rewrite connect_heap, connect_fst.
  apply list_lookup_middle. by rewrite close_heap_length.
Qed.

Lemma connect_state (id url0 : string) (options0 : EventSourceInit) (s : Service) :
  getConnectionState id (snd (connect id url0 options0 s)) = Some "connecting".
Proof.
  unfold getConnectionState. rewrite connect_mget_eq.
  rewrite <- (connect_fst id url0 options0 s), connect_source. reflexivity.
Qed.

(** Whatever was registered before, the EventSource [connect] creates carries
    the two logging listeners and nothing else, and the bookkeeping for the
    id is empty: the table is reset before the loop that re-attaches reads
    it. *)
Lemma connect_attaches_only_loggers
    (id url0 : string) (options0 : EventSourceInit) (s : Service) :
  es_listeners <$> heap (snd (connect id url0 options0 s))
                     !! fst (connect id url0 options0 s)
  = Some [("open", OpenLogger id); ("error", ErrorLogger id)]
  ∧ eventListeners (snd (connect id url0 options0 s)) !! id = Some [].
Proof.
  split.
  - by rewrite connect_source.
  - rewrite connect_eventListeners. apply lookup_insert_eq.
Qed.

(** C1 (fails on the code). A listener registered with [addListener] is on
    the first EventSource and in the bookkeeping; after [reconnect], and
    after the app-state reconnection of the closed connection, the id is
    served by a new EventSource that carries the two logging listeners only,
    and the bookkeeping for the id is empty. *)
Theorem reconnect_loses_listeners :
  let s1 := session_connected in
  let s2 := reconnect "notifications" s1 in
  let s1' := lib_setReadyState 0 CLOSED s1 in
  (es_listeners <$> heap s1 !! 0
     = Some [("open", OpenLogger "notifications");
             ("error", ErrorLogger "notifications");
             ("message", UserListener 1)]
   ∧ eventListeners s1 !! "notifications" = Some [("message", UserListener 1)])
  ∧ (mget "notifications" (eventSources s2) = Some 1
     ∧ es_listeners <$> heap s2 !! 1
       = Some [("open", OpenLogger "notifications");
               ("error", ErrorLogger "notifications")]
     ∧ eventListeners s2 !! "notifications" = Some [])
  ∧ (∃ s3, onAppStateChange active s1' = Some s3
     ∧ mget "notifications" (eventSources s3) = Some 1
     ∧ es_listeners <$> heap s3 !! 1
       = Some [("open", OpenLogger "notifications");
               ("error", ErrorLogger "notifications")]
     ∧ eventListeners s3 !! "notifications" = Some []).
Proof.
  repeat split.
  eexists. repeat split.
Qed.

Lemma NoDup_fmap_elem_inj {A B : Type} (f : A → B) (l : list A) (x y : A) :
  NoDup (f <$> l) → x ∈ l → y ∈ l → f x = f y → x = y.
Proof.
  induction l as [| a l IH]; simpl; intros Hnd Hx Hy Hf.
  - by apply elem_of_nil in Hx.
  - apply NoDup_cons in Hnd as [Hnotin Hnd].
    apply elem_of_cons in Hx as [-> | Hx]; apply elem_of_cons in Hy as [-> | Hy].
    + reflexivity.
    + exfalso. apply Hnotin. rewrite Hf. apply list_elem_of_fmap. eauto.
    + exfalso. apply Hnotin. rewrite <- Hf. apply list_elem_of_fmap. eauto.
    + by apply IH.
Qed.

(** Two ids never share an EventSource. *)
Lemma wf_sources_distinct (s : Service) (id id' : string) (r r' : nat) :
  wf s → id ≠ id' →
  mget id (eventSources s) = Some r → mget id' (eventSources s) = Some r' →
  r ≠ r'.
Proof.
  intros (_ & Hv & _) Hne Hr Hr' ->.
  apply mget_Some_live in Hr, Hr'.
  pose proof (NoDup_fmap_elem_inj snd _ _ _ Hv Hr Hr' eq_refl) as Heq.
  congruence.
Qed.

(** *** [reconnectAllIfNeeded] as a sequence of [connect] calls *)




















(** *** Reachable states *)

(** The calls a client can make, the two callbacks the environment fires, and
    the library changing the [readyState] of an EventSource. *)
Inductive Action :=
| Connect (id url0 : string) (options0 : EventSourceInit)
| AddListener (id type : string) (listener : Listener)
| RemoveListener (id type : string) (listener : Listener)
| Close (id : string)
| CloseAll
| Reconnect (id : string)
| AppStateChange (nextAppState : AppStateStatus)
| NetInfoChange (state : NetInfoState)
| LibReadyState (eventSource : nat) (rs : Z).

Definition step (a : Action) (s : Service) : option Service :=
  match a with
  | Connect id url0 options0 => Some (snd (connect id url0 options0 s))
  | AddListener id type listener => Some (addListener id type listener s)
  | RemoveListener id type listener => Some (removeListener id type listener s)
  | Close id => Some (close id s)
  | CloseAll => closeAll s
  | Reconnect id => Some (reconnect id s)
  | AppStateChange nextAppState => onAppStateChange nextAppState s
  | NetInfoChange state => onNetInfoChange state s
  | LibReadyState eventSource rs => Some (lib_setReadyState eventSource rs s)
  end.

Inductive reachable : Service → Prop :=
| reachable_initial : reachable initial
| reachable_step (a : Action) (s s' : Service) :
    reachable s → step a s = Some s' → reachable s'.

Lemma wf_same_sources (s s' : Service) :
  eventSources s' = eventSources s → length (heap s') = length (heap s) →
  wf s → wf s'.
Proof. unfold wf. by intros -> ->. Qed.

Lemma addListener_wf (id type : string) (listener : Listener) (s : Service) :
  wf s → wf (addListener id type listener s).
Proof.
  unfold addListener. destruct (mget id (eventSources s)); [| done].
  destruct (existsb _ _); apply wf_same_sources; simpl;
    try done; apply length_alter.
Qed.

Lemma removeListener_wf (id type : string) (listener : Listener) (s : Service) :
  wf s → wf (removeListener id type listener s).
Proof.
  unfold removeListener. destruct (mget id (eventSources s)); [| done].
  apply wf_same_sources; simpl; [done | apply length_alter].
Qed.

Lemma lib_setReadyState_wf (r : nat) (rs : Z) (s : Service) :
  wf s → wf (lib_setReadyState r rs s).
Proof. apply wf_same_sources; simpl; [done | apply length_alter]. Qed.

Lemma reconnect_wf (id : string) (s : Service) : wf s → wf (reconnect id s).
Proof.
  unfold reconnect. destruct (connectionParams s !! id); [| done].
  apply connect_wf.
Qed.

Lemma for_of_entries_preserves (P : Service → Prop)
    (body : string → nat → Service → Service) :
  (∀ id r s, P s → P (body id r s)) →
  ∀ fuel index s s',
    P s → for_of_entries fuel index body s = Some s' → P s'.
Proof.
  intros Hbody. induction fuel as [| fuel IH]; intros index s s' HP; simpl.
  - discriminate.
  - destruct (eventSources s !! index) as [[[id r] |] |].
    + apply IH. by apply Hbody.
    + by apply IH.
    + by intros [= <-].
Qed.

(** The loop of [closeAll] deletes while it iterates; the list keeps its
    length, so the iterator reaches the end. *)
Lemma for_of_entries_close_total :
  ∀ fuel index s,
    length (eventSources s) - index < fuel →
    is_Some (for_of_entries fuel index (λ id _ s0, close id s0) s).
Proof.
  induction fuel as [| fuel IH]; intros index s Hfuel; [lia |]. simpl.
  destruct (eventSources s !! index) as [[[id r] |] |] eqn:Hl; [| | done].
  - apply lookup_lt_Some in Hl. apply IH.
    rewrite close_eventSources, length_mdelete. lia.
  - apply lookup_lt_Some in Hl. apply IH. lia.
Qed.

Lemma closeAll_total (s : Service) : is_Some (closeAll s).
Proof.
  unfold closeAll.
  destruct (for_of_entries_close_total (length (eventSources s) + 1) 0 s)
    as [s1 ->]; [lia |].
  simpl. eauto.
Qed.

Lemma closeAll_wf (s s' : Service) : closeAll s = Some s' → wf s'.
Proof.
  unfold closeAll.
  destruct (for_of_entries _ _ _ _) as [s1 |]; simpl; [| done].
  intros [= <-]. unfold wf, keys, values. simpl. rewrite live_mclear. simpl.
  repeat split; constructor.
Qed.

Lemma reconnectAllIfNeeded_wf (s s' : Service) :
  wf s → reconnectAllIfNeeded s = Some s' → wf s'.
Proof.
  intros Hwf. unfold reconnectAllIfNeeded, reconnectAllIfNeeded_fuel.
  apply for_of_entries_preserves; [| done].
  intros id r s0 Hwf0. unfold reconnect_if_closed.
  destruct (heap s0 !! r) as [es |]; [| done].
  destruct (readyState es =? CLOSED)%Z; [| done].
  destruct (connectionParams s0 !! id); [| done].
  by apply connect_wf.
Qed.

Lemma step_wf (a : Action) (s s' : Service) :
  wf s → step a s = Some s' → wf s'.
Proof.
  intros Hwf. destruct a; simpl.
  - intros [= <-]. by apply connect_wf.
  - intros [= <-]. by apply addListener_wf.
  - intros [= <-]. by apply removeListener_wf.
  - intros [= <-]. by apply close_wf.
  - apply closeAll_wf.
  - intros [= <-]. by apply reconnect_wf.
  - destruct nextAppState; simpl; try (by intros [= <-]).
    by apply reconnectAllIfNeeded_wf.
  - unfold onNetInfoChange.
    destruct (truthy (isConnected state) && truthy (isInternetReachable state)).
    + by apply reconnectAllIfNeeded_wf.
    + by intros [= <-].
  - intros [= <-]. by apply lib_setReadyState_wf.
Qed.

(** Every state of a run of the service is well-formed. *)
Lemma reachable_wf (s : Service) : reachable s → wf s.
Proof.
  induction 1 as [| a s s' _ IH Hstep]; [apply wf_initial |].
  by apply (step_wf a s).
Qed.


(** Parameters are stored for every tracked id: [connect] stores them,
    [close] keeps them, and [closeAll] drops them together with the
    sources. *)
Definition params_stored (s : Service) : Prop :=
  ∀ id r, mget id (eventSources s) = Some r → is_Some (connectionParams s !! id).

Lemma mget_mdelete_is_Some (id id' : string) (m : list (option (string * nat))) :
  is_Some (mget id' (mdelete id m)) → is_Some (mget id' m).
Proof.
  rewrite <- !not_eq_None_Some, !mget_None_keys. intros Hin Hnot. apply Hin.
  intros Hk. apply Hnot. eapply elem_of_sublist; [exact Hk |].
  unfold keys. apply fmap_sublist, live_mdelete_sublist.
Qed.

Lemma close_params_stored (id : string) (s : Service) :
  params_stored s → params_stored (close id s).
Proof.
  intros Hps id' r Hr. rewrite close_connectionParams.
  rewrite close_eventSources in Hr.
  destruct (mget_mdelete_is_Some id id' (eventSources s)) as [r' Hr']; [by eexists |].
  by apply (Hps id' r').
Qed.

Lemma connect_params_stored (id url0 : string) (options0 : EventSourceInit) (s : Service) :
  params_stored s → params_stored (snd (connect id url0 options0 s)).
Proof.
  intros Hps id' r. rewrite connect_connectionParams.
  destruct (decide (id = id')) as [<- | Hne].
  - intros _. rewrite lookup_insert_eq. by eexists.
  - rewrite connect_mget_ne, lookup_insert_ne by done. apply Hps.
Qed.

Lemma step_params_stored (a : Action) (s s' : Service) :
  params_stored s → step a s = Some s' → params_stored s'.
Proof.
  intros Hps.
  assert (Hre : ∀ s1, reconnectAllIfNeeded s = Some s1 → params_stored s1).
  { intros s1. unfold reconnectAllIfNeeded, reconnectAllIfNeeded_fuel.
    apply for_of_entries_preserves; [| done].
    intros id r s0 Hps0. unfold reconnect_if_closed.
    destruct (heap s0 !! r) as [es |]; [| done].
    destruct (readyState es =? CLOSED)%Z; [| done].
    destruct (connectionParams s0 !! id); [| done].
    by apply connect_params_stored. }
  destruct a; simpl.
  - intros [= <-]. by apply connect_params_stored.
  - intros [= <-]. unfold addListener.
    destruct (mget id (eventSources s)); [| done]. by destruct (existsb _ _).
  - intros [= <-]. unfold removeListener.
    by destruct (mget id (eventSources s)).
  - intros [= <-]. by apply close_params_stored.
  - unfold closeAll. destruct (for_of_entries _ _ _ _); simpl; [| done].
    intros [= <-] id r. simpl. by rewrite mget_mclear.
  - intros [= <-]. unfold reconnect.
    destruct (connectionParams s !! id); [| done]. by apply connect_params_stored.
  - destruct nextAppState; simpl; try (by intros [= <-]). apply Hre.
  - unfold onNetInfoChange. destruct (_ && _); [apply Hre | by intros [= <-]].
  - by intros [= <-].
Qed.

Lemma reachable_params_stored (s : Service) : reachable s → params_stored s.
Proof.
  induction 1 as [| a s s' _ IH Hstep]; [by intros id r |].
  by apply (step_params_stored a s).
Qed.

(** C9. [close id] removes the EventSource entry of [id] and nothing else of
    the bookkeeping: [getConnectionState id] is null afterwards; the stored
    parameters and the listener table are the same maps as before; every
    other id keeps its entry, its state and its EventSource object; and, when
    parameters are stored for [id] (they are whenever [id] is tracked),
    [reconnect id] after the close tracks a new EventSource built from them,
    in state connecting. *)
Theorem close_frame (id : string) (s : Service) :
  reachable s →
  getConnectionState id (close id s) = None ∧
  connectionParams (close id s) = connectionParams s ∧
  eventListeners (close id s) = eventListeners s ∧
  (∀ id', id' ≠ id →
     mget id' (eventSources (close id s)) = mget id' (eventSources s) ∧
     getConnectionState id' (close id s) = getConnectionState id' s ∧
     ∀ r', mget id' (eventSources s) = Some r' →
           heap (close id s) !! r' = heap s !! r') ∧
  (∀ params, connectionParams s !! id = Some params →
     getConnectionState id (reconnect id (close id s)) = Some "connecting" ∧
     ∃ r, mget id (eventSources (reconnect id (close id s))) = Some r ∧
          heap (reconnect id (close id s)) !! r
          = Some (connected_source id (url params) (options params))) ∧
  (is_Some (mget id (eventSources s)) → is_Some (connectionParams s !! id)).
Proof.
  intros Hreach. pose proof (reachable_wf s Hreach) as Hwf.
  assert (Hother : ∀ id' r', id' ≠ id → mget id' (eventSources s) = Some r' →
                     heap (close id s) !! r' = heap s !! r').
  { intros id' r' Hne Hr'.
    destruct (mget id (eventSources s)) as [r |] eqn:Hr.
    - apply (close_heap_other id s r); [done |].
      intros ->. by apply (wf_sources_distinct s id' id r r Hwf). 
    - by rewrite close_untracked. }
  split; [| split; [| split; [| split; [| split]]]].
  - unfold getConnectionState. rewrite close_eventSources.
    rewrite mget_mdelete_eq; [done | apply Hwf].
  - apply close_connectionParams.
  - apply close_eventListeners.
  - intros id' Hne.
    assert (Hget : mget id' (eventSources (close id s)) = mget id' (eventSources s)).
    { rewrite close_eventSources. by apply mget_mdelete_ne. }
    split; [exact Hget |]. split; [| intros r' Hr'; by apply (Hother id')].
    unfold getConnectionState. rewrite Hget.
    destruct (mget id' (eventSources s)) as [r' |] eqn:Hr'; [| done].
    by rewrite (Hother id' r').
  - intros params Hp. unfold reconnect.
    rewrite close_connectionParams, Hp.
    split; [apply connect_state |].
    eexists. split; [apply connect_mget_eq |].
    rewrite <- (connect_fst id (url params) (options params) (close id s)).
    apply connect_source.
  - intros [r Hr]. by apply (reachable_params_stored s Hreach id r).
Qed.

Lemma session_connected_reachable : reachable session_connected.
Proof.
  eapply (reachable_step (AddListener "notifications" "message" (UserListener 1)));
    [| reflexivity].
  eapply (reachable_step (Connect "notifications" "https://example.test/sse" opts0));
    [apply reachable_initial | reflexivity].
Defined.

Lemma close_frame_witness :
  reachable session_connected ∧
  getConnectionState "notifications" (close "notifications" session_connected) = None ∧
  getConnectionState "notifications"
    (reconnect "notifications" (close "notifications" session_connected))
  = Some "connecting".
Proof.
  destruct (close_frame "notifications" session_connected session_connected_reachable)
    as (Hnull & _ & _ & _ & Hre & _).
  split; [exact session_connected_reachable |]. split; [exact Hnull |].
  exact (proj1 (Hre (mkParams "https://example.test/sse" opts0) eq_refl)).
Defined.

(** The session after the library reported the connection closed. *)
Definition session_dropped : Service := lib_setReadyState 0 CLOSED session_connected.


(** *** More of the service: replacement, bookkeeping, pausing, shutting down *)

Lemma wf_tracked_in_heap (s : Service) (id : string) (r : nat) :
  wf s → mget id (eventSources s) = Some r → r < length (heap s).
Proof.
  intros Hwf Hget. apply (wf_entry_in_heap s id r Hwf). by apply entry_of_mget.
Qed.

(** [connect id] leaves alone every object that exists and is not the one
    [id] was served by. *)
Lemma connect_heap_other (id url0 : string) (options0 : EventSourceInit)
    (s : Service) (r' : nat) :
  r' < length (heap s) → mget id (eventSources s) ≠ Some r' →
  heap (snd (connect id url0 options0 s)) !! r' = heap s !! r'.
Proof.
  intros Hlt Hnot. rewrite connect_heap, lookup_app_l by (by rewrite close_heap_length).
  destruct (mget id (eventSources s)) as [r |] eqn:Hget.
  - apply (close_heap_other id s r r' Hget). congruence.
  - by rewrite close_untracked.
Qed.

(** X10. [connect id url options] on a well-formed state: the id is served
    by a new EventSource, in state CONNECTING and with the two logging
    listeners, the parameters are stored and the bookkeeping of the id is
    empty; the EventSource that served the id before is closed and no id
    refers to it any more; the entries of every other id, and every other
    object, are as before. *)
Theorem connect_replaces (id url0 : string) (options0 : EventSourceInit) (s : Service) :
  wf s →
  let r := fst (connect id url0 options0 s) in
  let s' := snd (connect id url0 options0 s) in
  (r = length (heap s) ∧
   mget id (eventSources s') = Some r ∧
   heap s' !! r = Some (connected_source id url0 options0) ∧
   connectionParams s' !! id = Some (mkParams url0 options0) ∧
   eventListeners s' !! id = Some []) ∧
  (∀ r0 es0, mget id (eventSources s) = Some r0 → heap s !! r0 = Some es0 →
     heap s' !! r0 = Some (es_close es0) ∧
     ∀ id', mget id' (eventSources s') ≠ Some r0) ∧
  (∀ id', id' ≠ id →
     mget id' (eventSources s') = mget id' (eventSources s) ∧
     connectionParams s' !! id' = connectionParams s !! id' ∧
     eventListeners s' !! id' = eventListeners s !! id') ∧
  (∀ r', r' < length (heap s) → mget id (eventSources s) ≠ Some r' →
     heap s' !! r' = heap s !! r').
Proof.
  intros Hwf r s'. subst r s'. split; [| split; [| split]].
  - rewrite connect_source, connect_fst, connect_mget_eq.
    rewrite connect_connectionParams, connect_eventListeners, !lookup_insert_eq.
    done.
  - intros r0 es0 Hget Hes.
    pose proof (lookup_lt_Some _ _ _ Hes) as Hlt. split.
    + rewrite connect_heap, lookup_app_l by (by rewrite close_heap_length).
      unfold close. rewrite Hget. simpl.
      by rewrite list_lookup_alter_eq, Hes.
    + intros id' Hid'. destruct (decide (id = id')) as [<- | Hne].
      * rewrite connect_mget_eq in Hid'. injection Hid' as Heq. lia.
      * rewrite connect_mget_ne in Hid' by done.
        by apply (wf_sources_distinct s id id' r0 r0 Hwf Hne).
  - intros id' Hne.
    rewrite connect_mget_ne, connect_connectionParams, connect_eventListeners by done.
    by rewrite !lookup_insert_ne.
  - intros r' Hlt Hnot. by apply connect_heap_other.
Qed.

Lemma connect_replaces_witness :
  wf session_connected ∧
  getConnectionState "notifications"
    (snd (connect "notifications" "https://example.test/v2" opts0 session_connected))
  = Some "connecting".
Proof.
  assert (Hwf : wf session_connected).
  { repeat split; vm_compute; repeat constructor; set_solver. }
  split; [exact Hwf |].
  pose proof (connect_replaces "notifications" "https://example.test/v2" opts0
                session_connected Hwf) as [(_ & Hget & Hsrc & _) _].
  unfold getConnectionState. rewrite Hget, Hsrc. reflexivity.
Defined.

(** *** The listener bookkeeping *)

(** What the table [eventListeners] satisfies in every state of a run: a
    tracked id has a row; a row holds a pair at most once; and the pairs in
    the row of a tracked id are attached to the EventSource that serves it. *)
Definition listeners_stored (s : Service) : Prop :=
  ∀ id r, mget id (eventSources s) = Some r → is_Some (eventListeners s !! id).

Definition listeners_distinct (s : Service) : Prop :=
  ∀ id ls, eventListeners s !! id = Some ls → NoDup ls.

Definition listeners_attached (s : Service) : Prop :=
  ∀ id r ls es,
    mget id (eventSources s) = Some r → eventListeners s !! id = Some ls →
    heap s !! r = Some es → ∀ l, l ∈ ls → l ∈ es_listeners es.

Definition bookkeeping_ok (s : Service) : Prop :=
  wf s ∧ listeners_stored s ∧ listeners_distinct s ∧ listeners_attached s.

Lemma same_listener_true (type : string) (listener : Listener)
    (l : string * Listener) :
  same_listener type listener l = true ↔ l = (type, listener).
Proof.
  unfold same_listener. destruct l as [t f]. simpl.
  rewrite andb_true_iff, String.eqb_eq, bool_decide_eq_true.
  split; [by intros [-> ->] | by intros [= -> ->]].
Qed.

Lemma existsb_same_listener (type : string) (listener : Listener)
    (ls : list (string * Listener)) :
  existsb (same_listener type listener) ls = true ↔ (type, listener) ∈ ls.
Proof.
  rewrite existsb_exists. split.
  - intros (l & Hin & Hsame). apply same_listener_true in Hsame as ->.
    by apply list_elem_of_In.
  - intros Hin. exists (type, listener). split; [by apply list_elem_of_In |].
    by apply same_listener_true.
Qed.

Lemma elem_of_remove (type : string) (listener : Listener)
    (ls : list (string * Listener)) (l : string * Listener) :
  l ∈ List.filter (λ l, negb (same_listener type listener l)) ls
  ↔ l ∈ ls ∧ l ≠ (type, listener).
Proof.
  rewrite list_elem_of_In, filter_In, <- list_elem_of_In, negb_true_iff.
  rewrite <- not_true_iff_false, same_listener_true. reflexivity.
Qed.

Lemma NoDup_remove (type : string) (listener : Listener)
    (ls : list (string * Listener)) :
  NoDup ls → NoDup (List.filter (λ l, negb (same_listener type listener l)) ls).
Proof.
  induction 1 as [| x ls Hx Hnd IH]; simpl; [constructor |].
  destruct (negb (same_listener type listener x)); [| done].
  constructor; [| done]. rewrite elem_of_remove. tauto.
Qed.

Lemma remove_absent (type : string) (listener : Listener)
    (ls : list (string * Listener)) :
  (type, listener) ∉ ls →
  List.filter (λ l, negb (same_listener type listener l)) ls = ls.
Proof.
  induction ls as [| x ls IH]; simpl; [done |]. intros Hnot.
  apply not_elem_of_cons in Hnot as [Hne Hnot].
  destruct (same_listener type listener x) eqn:Hsame; simpl.
  - apply same_listener_true in Hsame. congruence.
  - by rewrite IH.
Qed.

Lemma close_bookkeeping_ok (id : string) (s : Service) :
  bookkeeping_ok s → bookkeeping_ok (close id s).
Proof.
  intros (Hwf & Hst & Hnd & Hat). split; [by apply close_wf |].
  assert (Hsrc : ∀ id' r', mget id' (eventSources (close id s)) = Some r' →
                 id' ≠ id ∧ mget id' (eventSources s) = Some r').
  { intros id' r'. rewrite close_eventSources. intros Hget.
    destruct (decide (id' = id)) as [-> | Hne].
    - rewrite mget_mdelete_eq in Hget by apply Hwf. discriminate.
    - by rewrite mget_mdelete_ne in Hget. }
  split; [| split].
  - intros id' r' [_ Hget]%Hsrc. rewrite close_eventListeners. by apply (Hst id' r').
  - intros id' ls. rewrite close_eventListeners. apply Hnd.
  - intros id' r' ls es [Hne Hget]%Hsrc. rewrite close_eventListeners. intros Hls.
    destruct (mget id (eventSources s)) as [r |] eqn:Hid.
    + rewrite (close_heap_other id s r r' Hid).
      * by apply (Hat id' r').
      * by apply (wf_sources_distinct s id' id r' r).
    + rewrite close_untracked by done. by apply (Hat id' r').
Qed.

Lemma connect_bookkeeping_ok (id url0 : string) (options0 : EventSourceInit)
    (s : Service) :
  bookkeeping_ok s → bookkeeping_ok (snd (connect id url0 options0 s)).
Proof.
  intros (Hwf & Hst & Hnd & Hat). split; [by apply connect_wf |].
  split; [| split].
  - intros id' r'. rewrite connect_eventListeners.
    destruct (decide (id = id')) as [<- | Hne].
    + rewrite lookup_insert_eq. by eexists.
    + rewrite connect_mget_ne, lookup_insert_ne by done. apply Hst.
  - intros id' ls. rewrite connect_eventListeners.
    intros [[_ <-] | [_ Hls]]%lookup_insert_Some; [constructor | by apply (Hnd id')].
  - intros id' r' ls es. rewrite connect_eventListeners.
    destruct (decide (id = id')) as [<- | Hne].
    + rewrite lookup_insert_eq. intros _ [= <-] _ l Hl. by apply elem_of_nil in Hl.
    + rewrite connect_mget_ne, lookup_insert_ne by done. intros Hget Hls.
      rewrite connect_heap_other.
      * by apply (Hat id' r').
      * by apply (wf_tracked_in_heap s id').
      * intros Hid. by apply (wf_sources_distinct s id id' r' r' Hwf Hne).
Qed.

Lemma addListener_bookkeeping_ok (id type : string) (listener : Listener)
    (s : Service) :
  bookkeeping_ok s → bookkeeping_ok (addListener id type listener s).
Proof.
  intros Hok. pose proof Hok as (Hwf & Hst & Hnd & Hat).
  split; [by apply addListener_wf |].
  unfold addListener. destruct (mget id (eventSources s)) as [r |] eqn:Hid;
    [| by destruct Hok as (_ & ? & ? & ?)].
  destruct (Hst id r Hid) as [ls0 Hls0]. rewrite Hls0. simpl.
  assert (Hheap : ∀ id' r' es,
            mget id' (eventSources s) = Some r' →
            alter (es_addEventListener type listener) r (heap s) !! r' = Some es →
            ∃ es0, heap s !! r' = Some es0 ∧
                   ((id' ≠ id ∧ es = es0) ∨
                    (id' = id ∧ es_listeners es = es_listeners es0 ++ [(type, listener)]))).
  { intros id' r' es Hget. destruct (decide (id' = id)) as [-> | Hne].
    - assert (r' = r) as -> by congruence.
      rewrite list_lookup_alter_eq. destruct (heap s !! r) as [es0 |]; [| done].
      intros [= <-]. exists es0. split; [done |]. by right.
    - rewrite list_lookup_alter_ne
        by (apply not_eq_sym; by apply (wf_sources_distinct s id' id r' r)).
      intros Hes. exists es. split; [done |]. by left. }
  destruct (existsb (same_listener type listener) ls0) eqn:Hex;
    (split; [| split]);
    unfold listeners_stored, listeners_distinct, listeners_attached; simpl.
  - done.
  - done.
  - intros id' r' ls es Hget Hls Hes l Hl.
    destruct (Hheap id' r' es Hget Hes) as (es0 & Hes0 & [[_ ->] | [_ ->]]).
    + by apply (Hat id' r' ls es0).
    + apply elem_of_app. left. by apply (Hat id' r' ls es0).
  - intros id' r' Hget.
    destruct (decide (id = id')) as [<- | Hne].
    + rewrite lookup_insert_eq. by eexists.
    + rewrite lookup_insert_ne by done. by apply (Hst id' r').
  - intros id' ls [[_ <-] | [_ Hls]]%lookup_insert_Some; [| by apply (Hnd id')].
    apply NoDup_app. split; [by apply (Hnd id) |]. split; [| apply NoDup_singleton].
    intros l Hl ->%list_elem_of_singleton.
    apply existsb_same_listener in Hl. congruence.
  - intros id' r' ls es Hget Hls Hes l Hl.
    destruct (Hheap id' r' es Hget Hes) as (es0 & Hes0 & [[Hne ->] | [-> ->]]).
    + rewrite lookup_insert_ne in Hls by done. by apply (Hat id' r' ls es0).
    + rewrite lookup_insert_eq in Hls. injection Hls as <-.
      assert (r' = r) as -> by congruence.
      apply elem_of_app in Hl as [Hl | Hl]; apply elem_of_app; [left | by right].
      by apply (Hat id r ls0 es0).
Qed.

Lemma removeListener_bookkeeping_ok (id type : string) (listener : Listener)
    (s : Service) :
  bookkeeping_ok s → bookkeeping_ok (removeListener id type listener s).
Proof.
  intros Hok. pose proof Hok as (Hwf & Hst & Hnd & Hat).
  split; [by apply removeListener_wf |].
  unfold removeListener. destruct (mget id (eventSources s)) as [r |] eqn:Hid;
    [| by destruct Hok as (_ & ? & ? & ?)].
  destruct (Hst id r Hid) as [ls0 Hls0]. rewrite Hls0. simpl.
  split; [| split];
    unfold listeners_stored, listeners_distinct, listeners_attached; simpl.
  - intros id' r' Hget.
    destruct (decide (id = id')) as [<- | Hne].
    + rewrite lookup_insert_eq. by eexists.
    + rewrite lookup_insert_ne by done. by apply (Hst id' r').
  - intros id' ls [[_ <-] | [_ Hls]]%lookup_insert_Some; [| by apply (Hnd id')].
    apply NoDup_remove. by apply (Hnd id).
  - intros id' r' ls es Hget. destruct (decide (id' = id)) as [-> | Hne].
    + assert (r' = r) as -> by congruence.
      rewrite lookup_insert_eq, list_lookup_alter_eq.
      destruct (heap s !! r) as [es0 |] eqn:Hes0; [| done].
      intros [= <-] [= <-] l. simpl. rewrite !elem_of_remove.
      intros [Hl Hne]. split; [| done]. by apply (Hat id r ls0 es0).
    + rewrite lookup_insert_ne by done.
      rewrite list_lookup_alter_ne
        by (apply not_eq_sym; by apply (wf_sources_distinct s id' id r' r)).
      by apply (Hat id' r').
Qed.

Lemma lib_setReadyState_bookkeeping_ok (r : nat) (rs : Z) (s : Service) :
  bookkeeping_ok s → bookkeeping_ok (lib_setReadyState r rs s).
Proof.
  intros (Hwf & Hst & Hnd & Hat). split; [by apply lib_setReadyState_wf |].
  split; [done |]. split; [done |].
  intros id r' ls es Hget Hls. simpl. rewrite list_lookup_alter.
  destruct (decide (r = r')) as [<- | Hne].
  - destruct (heap s !! r) as [es0 |] eqn:Hes0; [| done].
    intros [= <-]. simpl. by apply (Hat id r ls es0).
  - by apply (Hat id r').
Qed.

Lemma reconnect_if_closed_bookkeeping_ok (id : string) (r : nat) (s : Service) :
  bookkeeping_ok s → bookkeeping_ok (reconnect_if_closed id r s).
Proof.
  intros Hok. unfold reconnect_if_closed.
  destruct (heap s !! r) as [es |]; [| done].
  destruct (readyState es =? CLOSED)%Z; [| done].
  destruct (connectionParams s !! id); [| done].
  by apply connect_bookkeeping_ok.
Qed.

Lemma step_bookkeeping_ok (a : Action) (s s' : Service) :
  bookkeeping_ok s → step a s = Some s' → bookkeeping_ok s'.
Proof.
  intros Hok.
  assert (Hre : ∀ s1, reconnectAllIfNeeded s = Some s1 → bookkeeping_ok s1).
  { intros s1. unfold reconnectAllIfNeeded, reconnectAllIfNeeded_fuel.
    apply for_of_entries_preserves; [| done].
    intros id r s0. apply reconnect_if_closed_bookkeeping_ok. }
  destruct a; simpl.
  - intros [= <-]. by apply connect_bookkeeping_ok.
  - intros [= <-]. by apply addListener_bookkeeping_ok.
  - intros [= <-]. by apply removeListener_bookkeeping_ok.
  - intros [= <-]. by apply close_bookkeeping_ok.
  - intros Hall. split; [by apply (closeAll_wf s) |]. revert Hall.
    unfold closeAll. destruct (for_of_entries _ _ _ _); simpl; [| done].
    intros [= <-]. split; [| split].
    + intros id r. simpl. by rewrite mget_mclear.
    + intros id ls. simpl. by rewrite lookup_empty.
    + intros id r ls es. simpl. by rewrite mget_mclear.
  - intros [= <-]. unfold reconnect.
    destruct (connectionParams s !! id); [| done]. by apply connect_bookkeeping_ok.
  - destruct nextAppState; simpl; try (by intros [= <-]). apply Hre.
  - unfold onNetInfoChange. destruct (_ && _); [apply Hre | by intros [= <-]].
  - intros [= <-]. by apply lib_setReadyState_bookkeeping_ok.
Qed.

Lemma reachable_bookkeeping_ok (s : Service) : reachable s → bookkeeping_ok s.
Proof.
  induction 1 as [| a s s' _ IH Hstep].
  - split; [apply wf_initial |]. split; [by intros id r |].
    split; [intros id ls; simpl; by rewrite lookup_empty | by intros id r].
  - by apply (step_bookkeeping_ok a s).
Qed.

(** X11. In every state of a run, whatever the calls, the callbacks and the
    library did: the service's record of the listeners of an id holds a
    [(type, listener)] pair at most once, and every tracked id has such a
    record, all of whose pairs are attached to the EventSource that serves
    the id now. *)
Theorem bookkeeping_sound (s : Service) :
  reachable s →
  (∀ id ls, eventListeners s !! id = Some ls → NoDup ls) ∧
  (∀ id r es, mget id (eventSources s) = Some r → heap s !! r = Some es →
     ∃ ls, eventListeners s !! id = Some ls ∧ ∀ l, l ∈ ls → l ∈ es_listeners es).
Proof.
  intros (Hwf & Hst & Hnd & Hat)%reachable_bookkeeping_ok. split; [exact Hnd |].
  intros id r es Hget Hes. destruct (Hst id r Hget) as [ls Hls].
  exists ls. split; [done |]. by apply (Hat id r ls es).
Qed.

Lemma bookkeeping_sound_witness :
  reachable session_connected ∧
  ∃ ls, eventListeners session_connected !! "notifications" = Some ls ∧ NoDup ls.
Proof.
  split; [exact session_connected_reachable |].
  exists [("message", UserListener 1)]. split; [reflexivity |].
  apply (proj1 (bookkeeping_sound session_connected session_connected_reachable)
           "notifications").
  reflexivity.
Defined.

Lemma es_remove_add (type : string) (listener : Listener) (es : EventSource) :
  (type, listener) ∉ es_listeners es →
  es_removeEventListener type listener (es_addEventListener type listener es) = es.
Proof.
  destruct es as [u o rs ls]. unfold es_removeEventListener, es_addEventListener.
  simpl. intros Hnot. f_equal.
  rewrite List.filter_app, remove_absent by done. simpl.
  assert (same_listener type listener (type, listener) = true) as ->
    by by apply same_listener_true.
  simpl. apply app_nil_r.
Qed.

(** X12. For a tracked id and a [(type, listener)] pair that is not attached
    to its EventSource, [removeListener] undoes [addListener]: the state
    after the two calls is the state before them. *)
Theorem removeListener_undoes_addListener
    (id type : string) (listener : Listener) (s : Service)
    (r : nat) (es : EventSource) :
  reachable s →
  mget id (eventSources s) = Some r → heap s !! r = Some es →
  (type, listener) ∉ es_listeners es →
  removeListener id type listener (addListener id type listener s) = s.
Proof.
  intros (Hwf & Hst & Hnd & Hat)%reachable_bookkeeping_ok Hget Hes Hnot.
  destruct (Hst id r Hget) as [ls Hls].
  assert (Hnot' : (type, listener) ∉ ls).
  { intros Hin. apply Hnot. by apply (Hat id r ls es). }
  assert (Hex : existsb (same_listener type listener) ls = false).
  { apply not_true_iff_false. by rewrite existsb_same_listener. }
  unfold addListener. rewrite Hget, Hls. simpl. rewrite Hex.
  unfold removeListener. simpl. rewrite Hget, lookup_insert_eq. simpl.
  rewrite list_alter_alter_eq, insert_insert_eq.
  rewrite List.filter_app, remove_absent by done. simpl.
  assert (same_listener type listener (type, listener) = true) as ->
    by by apply same_listener_true.
  simpl. rewrite app_nil_r, insert_id by done.
  rewrite (alter_fixpoint _ (heap s) r es Hes) by (by apply es_remove_add).
  by destruct s.
Qed.

Lemma removeListener_undoes_addListener_witness :
  removeListener "notifications" "message" (UserListener 2)
    (addListener "notifications" "message" (UserListener 2) session_connected)
  = session_connected.
Proof.
  apply (removeListener_undoes_addListener "notifications" "message" (UserListener 2)
           session_connected 0
           (mkEventSource "https://example.test/sse" opts0 CONNECTING
              [("open", OpenLogger "notifications");
               ("error", ErrorLogger "notifications");
               ("message", UserListener 1)])).
  - exact session_connected_reachable.
  - reflexivity.
  - reflexivity.
  - apply (bool_decide_unpack _). by vm_compute.
Defined.

(** *** [closeAll] *)

Lemma mget_after_emptied (k : string) (n : nat) (m : list (option (string * nat))) :
  mget k (replicate n None ++ m) = mget k m.
Proof. induction n as [| n IH]; simpl; auto. Qed.

Lemma mget_emptied (k : string) (n : nat) :
  mget k (replicate n (@None (string * nat))) = None.
Proof. induction n as [| n IH]; simpl; auto. Qed.

(** Applying [f] to the objects at the addresses [rs], one after the other. *)
Definition alter_all (f : EventSource → EventSource) (rs : list nat)
    (h : list EventSource) : list EventSource :=
  foldl (λ h0 r, alter f r h0) h rs.

Lemma alter_all_length (f : EventSource → EventSource) (rs : list nat)
    (h : list EventSource) :
  length (alter_all f rs h) = length h.
Proof.
  unfold alter_all. revert h. induction rs as [| r rs IH]; intros h; simpl;
    [done |].
  by rewrite IH, length_alter.
Qed.

Lemma alter_all_other (f : EventSource → EventSource) (rs : list nat)
    (h : list EventSource) (r : nat) :
  r ∉ rs → alter_all f rs h !! r = h !! r.
Proof.
  unfold alter_all. revert h. induction rs as [| r0 rs IH]; intros h; simpl;
    [done |].
  intros [Hne Hnot]%not_elem_of_cons. rewrite IH by done.
  by apply list_lookup_alter_ne.
Qed.

Lemma alter_all_at (f : EventSource → EventSource) (rs : list nat)
    (h : list EventSource) (r : nat) :
  (∀ es, f (f es) = f es) →
  r ∈ rs → alter_all f rs h !! r = f <$> h !! r.
Proof.
  intros Hidem. unfold alter_all. revert h.
  induction rs as [| r0 rs IH]; intros h; simpl.
  - by intros ?%elem_of_nil.
  - intros Hin. destruct (decide (r ∈ rs)) as [Hrs | Hrs].
    + rewrite IH by done. rewrite list_lookup_alter.
      destruct (decide (r0 = r)) as [-> | Hne]; [| done].
      destruct (h !! r); simpl; [| done]. by rewrite Hidem.
    + apply elem_of_cons in Hin as [-> | Hin]; [| contradiction].
      fold (alter_all f rs (alter f r0 h)).
      rewrite alter_all_other by done. apply list_lookup_alter_eq.
Qed.

(** The loop of [closeAll]: the records the iterator has passed are emptied;
    at a record that holds an entry, [close] empties that record and closes
    its object, and the iterator moves on. *)
Lemma for_of_entries_close (post : list (option (string * nat))) :
  ∀ (n : nat) (s : Service) (fuel : nat),
    eventSources s = replicate n None ++ post →
    length post < fuel →
    ∃ s1, for_of_entries fuel n (λ id _ s0, close id s0) s = Some s1 ∧
          eventSources s1 = replicate (n + length post) None ∧
          eventListeners s1 = eventListeners s ∧
          connectionParams s1 = connectionParams s ∧
          heap s1 = alter_all es_close (values post) (heap s).
Proof.
  induction post as [| e post IH]; intros n s fuel Hsrc Hfuel;
    (destruct fuel as [| fuel]; [simpl in Hfuel; lia |]); simpl.
  - rewrite Hsrc, app_nil_r, lookup_ge_None_2 by (by rewrite length_replicate).
    exists s. by rewrite Hsrc, app_nil_r, Nat.add_0_r.
  - rewrite Hsrc, list_lookup_middle by (by rewrite length_replicate).
    simpl in Hfuel. destruct e as [[id r] |].
    + assert (Hget : mget id (eventSources s) = Some r).
      { rewrite Hsrc, mget_after_emptied. simpl. by rewrite String.eqb_refl. }
      destruct (IH (S n) (close id s) fuel) as (s1 & Hrun & Hs1 & Hl & Hp & Hh).
      * rewrite close_eventSources, Hsrc, mdelete_at by apply mget_emptied.
        rewrite replicate_S_end, <- app_assoc. reflexivity.
      * lia.
      * exists s1. split; [exact Hrun |].
        rewrite Hs1, Hl, Hp, Hh, close_eventListeners, close_connectionParams.
        replace (n + S (length post)) with (S n + length post) by lia.
        repeat split. unfold close. rewrite Hget. reflexivity.
    + destruct (IH (S n) s fuel) as (s1 & Hrun & Hs1 & Hl & Hp & Hh).
      * rewrite Hsrc, replicate_S_end, <- app_assoc. reflexivity.
      * lia.
      * exists s1. split; [exact Hrun |]. rewrite Hs1, Hl, Hp, Hh.
        replace (n + S (length post)) with (S n + length post) by lia.
        done.
Qed.

Lemma mclear_emptied (n : nat) :
  mclear (replicate n (@None (string * nat))) = replicate n None.
Proof. unfold mclear. by rewrite fmap_replicate. Qed.

Lemma closeAll_result (s : Service) :
  closeAll s
  = Some (mkService (replicate (length (eventSources s)) None) ∅ ∅
            (alter_all es_close (values (eventSources s)) (heap s))).
Proof.
  unfold closeAll.
  destruct (for_of_entries_close (eventSources s) 0 s (length (eventSources s) + 1))
    as (s1 & -> & Hs1 & _ & _ & Hh); [done | lia |].
  simpl. by rewrite Hs1, Hh, mclear_emptied.
Qed.

Lemma tracked_values (s : Service) (r : nat) :
  wf s → (r ∈ values (eventSources s) ↔ ∃ id, mget id (eventSources s) = Some r).
Proof.
  intros (Hk & _). unfold values. rewrite list_elem_of_fmap. split.
  - intros ([id r'] & -> & Hin). exists id. simpl.
    apply mget_of_entry; [done |].
    unfold live in Hin. apply list_elem_of_omap in Hin as (e & He & Heq).
    simpl in Heq. by subst e.
  - intros (id & Hget). exists (id, r). split; [done |]. by apply mget_Some_live.
Qed.

(** X13. [closeAll()] returns, and afterwards: no id is tracked,
    [getConnectionState] is null for every id, the listener table and the
    stored parameters are empty; every EventSource that served an id has been
    closed, and every other object is untouched. *)
Theorem closeAll_closes_everything (s : Service) :
  wf s →
  ∃ s', closeAll s = Some s' ∧
    (∀ id, mget id (eventSources s') = None ∧ getConnectionState id s' = None) ∧
    eventListeners s' = ∅ ∧ connectionParams s' = ∅ ∧
    length (heap s') = length (heap s) ∧
    (∀ id r es, mget id (eventSources s) = Some r → heap s !! r = Some es →
       heap s' !! r = Some (es_close es)) ∧
    (∀ r, (∀ id, mget id (eventSources s) ≠ Some r) → heap s' !! r = heap s !! r).
Proof.
  intros Hwf. eexists. split; [apply closeAll_result |]. simpl.
  split; [| split; [done | split; [done | split; [| split]]]].
  - intros id. unfold getConnectionState. simpl. by rewrite mget_emptied.
  - apply alter_all_length.
  - intros id r es Hget Hes. rewrite alter_all_at, Hes; [done | done |].
    apply tracked_values; eauto.
  - intros r Hnot. apply alter_all_other.
    rewrite tracked_values by done. intros [id Hget]. by apply (Hnot id).
Qed.

Lemma closeAll_closes_everything_witness :
  wf session_connected ∧
  ∃ s', closeAll session_connected = Some s' ∧
        readyState <$> heap s' !! 0 = Some CLOSED.
Proof.
  assert (Hwf : wf session_connected)
    by exact (reachable_wf _ session_connected_reachable).
  split; [exact Hwf |].
  destruct (closeAll_closes_everything session_connected Hwf)
    as (s' & Hs' & _ & _ & _ & _ & Hclosed & _).
  exists s'. split; [exact Hs' |].
  by rewrite (Hclosed "notifications" 0 _ eq_refl eq_refl).
Defined.

(** A loop over a map of emptied records does nothing. *)
Lemma for_of_entries_emptied (body : string → nat → Service → Service) :
  ∀ (fuel index : nat) (s : Service) (n : nat),
    eventSources s = replicate n None → n - index < fuel →
    for_of_entries fuel index body s = Some s.
Proof.
  induction fuel as [| fuel IH]; intros index s n Hsrc Hfuel; simpl; [lia |].
  destruct (eventSources s !! index) as [[[id r] |] |] eqn:Hl.
  - rewrite Hsrc in Hl. apply lookup_replicate in Hl as [? _]. discriminate.
  - apply lookup_lt_Some in Hl. rewrite Hsrc, length_replicate in Hl.
    apply (IH (S index) s n Hsrc). lia.
  - reflexivity.
Qed.

Lemma live_emptied (n : nat) : live (replicate n (@None (string * nat))) = [].
Proof. unfold live. induction n as [| n IH]; simpl; auto. Qed.

(** X14. [closeAll()] cannot be undone by the service itself: in the state
    it leaves, [reconnect], [close], [addListener] and [removeListener] do
    nothing for any id, the reconnection on app-state and network events
    does nothing, and a second [closeAll()] does nothing. *)
Theorem closeAll_forgets (s s' : Service) :
  closeAll s = Some s' →
  (∀ id, reconnect id s' = s' ∧ close id s' = s') ∧
  (∀ id type listener,
     addListener id type listener s' = s' ∧
     removeListener id type listener s' = s') ∧
  (∀ nextAppState, onAppStateChange nextAppState s' = Some s') ∧
  (∀ state, onNetInfoChange state s' = Some s') ∧
  closeAll s' = Some s'.
Proof.
  rewrite closeAll_result. intros [= <-].
  set (s' := mkService _ _ _ _).
  assert (Hsrc : eventSources s' = replicate (length (eventSources s)) None)
    by reflexivity.
  assert (Hre : reconnectAllIfNeeded s' = Some s').
  { unfold reconnectAllIfNeeded, reconnectAllIfNeeded_fuel.
    apply (for_of_entries_emptied _ _ _ _ _ Hsrc).
    rewrite Hsrc, length_replicate. lia. }
  split; [| split; [| split; [| split]]].
  - intros id. split.
    + unfold reconnect. simpl. by rewrite lookup_empty.
    + apply close_untracked. rewrite Hsrc. apply mget_emptied.
  - intros id type listener. unfold addListener, removeListener.
    by rewrite Hsrc, mget_emptied.
  - intros []; simpl; done.
  - intros state. unfold onNetInfoChange. by destruct (_ && _).
  - rewrite closeAll_result, Hsrc, length_replicate. unfold values.
    rewrite live_emptied. reflexivity.
Qed.

Lemma closeAll_forgets_witness :
  ∃ s', closeAll session_dropped = Some s' ∧
        reconnect "notifications" s' = s' ∧
        onAppStateChange active s' = Some s'.
Proof.
  destruct (closeAll_total session_dropped) as [s' Hs'].
  exists s'. split; [exact Hs' |].
  destruct (closeAll_forgets session_dropped s' Hs') as (Hid & _ & Happ & _).
  split; [apply Hid | apply Happ].
Defined.

(** *** [reconnectAllIfNeeded], once more *)




(** *** [pauseAll] *)

(** [pauseAll] is private and its one call, in the app-state callback, is
    commented out. *)











End ServerSentEventsService.

(* ===================================================================== *)
(** ** WebSocketService.ts *)
(* ===================================================================== *)

Module WebSocketService.

(** export enum WebSocketStatus *)
Inductive WebSocketStatus := CONNECTING | OPEN | CLOSING | CLOSED | RECONNECTING.

#[global] Instance WebSocketStatus_eq_dec : EqDecision WebSocketStatus.
Proof. solve_decision. Defined.

Definition status_name (st : WebSocketStatus) : string :=
  match st with
  | CONNECTING => "CONNECTING" | OPEN => "OPEN" | CLOSING => "CLOSING"
  | CLOSED => "CLOSED" | RECONNECTING => "RECONNECTING"
  end.

(** The merged options ([Required<...>]); [auth] is never read. *)
Record Options := mkOptions {
  reconnection : bool;
  reconnectionAttempts : Z;
  reconnectionDelay : Z;
  reconnectionDelayMax : Z;
  autoConnect : bool;
  queueMessages : bool;
  path : string;
  transports : list string
}.

Definition DEFAULT_OPTIONS : Options :=
  mkOptions true 5%Z 1000%Z 10000%Z false true "/socket.io"
            ["websocket"; "polling"].

(** interface WebSocketServiceOptions: every field may be left out. *)
Record WebSocketServiceOptions := mkPartial {
  opt_reconnection : option bool;
  opt_reconnectionAttempts : option Z;
  opt_reconnectionDelay : option Z;
  opt_reconnectionDelayMax : option Z;
  opt_autoConnect : option bool;
  opt_queueMessages : option bool;
  opt_path : option string;
  opt_transports : option (list string)
}.

Definition no_options : WebSocketServiceOptions :=
  mkPartial None None None None None None None None.

(** [{ ...DEFAULT_OPTIONS, ...options }] *)
Definition merge_options (o : WebSocketServiceOptions) : Options :=
  mkOptions
    (default (reconnection DEFAULT_OPTIONS) (opt_reconnection o))
    (default (reconnectionAttempts DEFAULT_OPTIONS) (opt_reconnectionAttempts o))
    (default (reconnectionDelay DEFAULT_OPTIONS) (opt_reconnectionDelay o))
    (default (reconnectionDelayMax DEFAULT_OPTIONS) (opt_reconnectionDelayMax o))
    (default (autoConnect DEFAULT_OPTIONS) (opt_autoConnect o))
    (default (queueMessages DEFAULT_OPTIONS) (opt_queueMessages o))
    (default (path DEFAULT_OPTIONS) (opt_path o))
    (default (transports DEFAULT_OPTIONS) (opt_transports o)).

(** The socket.io [Socket] the service holds: the two flags the service
    reads, and whether [setupEventHandlers] put an [onAny] listener on it. *)
Record Socket := mkSocket {
  connected : bool;
  connecting : bool;
  anyListener : bool
}.

(** A queued event: [{ event: string; data: any[] }]. *)
Record Message := mkMessage { event : string; data : list string }.

(** A callback of the client: its identity, and whether it throws when it is
    called. Callbacks do not call back into the service. *)
Record Callback := mkCallback { cb_id : nat; cb_throws : bool }.

(** [authToken: string | (() => Promise<string>) | null]; a function token is
    given by what its promise settles to ([None]: it rejects). *)
Inductive AuthToken :=
| TokenString (token : string)
| TokenFunction (result : option string).

(** What [getAuthData()] resolves to: [{ token }] or [undefined], or the
    token function failed (then [getAuthData] reports the error and resolves
    to [undefined]). *)
Inductive AuthOutcome :=
| AuthData (token : option string)
| AuthFailed.

(** Calls that leave the service: on the client's callbacks and on the
    socket library. *)
Inductive Effect :=
| StatusChangeCalled (cb : nat) (st : WebSocketStatus)
| OpenCalled (cb : nat)
| CloseCalled (cb : nat) (reason : string)
| ErrorCalled (cb : nat) (message : string)
| MessageCalled (cb : nat) (ev : string) (args : list string)
| IoCreated (url : string) (auth : option string)
| SocketConnect
| SocketDisconnect
| SocketEmit (m : Message)
| SocketRemoveAllListeners.

(** The fields of a [WebSocketService], and the part of the JavaScript
    runtime the service interacts with. *)
Record World := mkWorld {
  socket : option Socket;
  connectionUrl : option string;
  options : Options;
  status : WebSocketStatus;
  explicitDisconnect : bool;
  messageQueue : list Message;
  authToken : option AuthToken;
  onMessageCallback : option Callback;
  onOpenCallback : option Callback;
  onCloseCallback : option Callback;
  onErrorCallback : option Callback;
  onStatusChangeCallback : option Callback;
  appStateListener : bool;
  pendingConnects : list AuthOutcome;
  trace : list Effect
}.

Definition set_socket (x : option Socket) (w : World) : World :=
  mkWorld x (connectionUrl w) (options w) (status w) (explicitDisconnect w)
    (messageQueue w) (authToken w) (onMessageCallback w) (onOpenCallback w)
    (onCloseCallback w) (onErrorCallback w) (onStatusChangeCallback w)
    (appStateListener w) (pendingConnects w) (trace w).

Definition set_connectionUrl (x : option string) (w : World) : World :=
  mkWorld (socket w) x (options w) (status w) (explicitDisconnect w)
    (messageQueue w) (authToken w) (onMessageCallback w) (onOpenCallback w)
    (onCloseCallback w) (onErrorCallback w) (onStatusChangeCallback w)
    (appStateListener w) (pendingConnects w) (trace w).

Definition set_status (x : WebSocketStatus) (w : World) : World :=
  mkWorld (socket w) (connectionUrl w) (options w) x (explicitDisconnect w)
    (messageQueue w) (authToken w) (onMessageCallback w) (onOpenCallback w)
    (onCloseCallback w) (onErrorCallback w) (onStatusChangeCallback w)
    (appStateListener w) (pendingConnects w) (trace w).

Definition set_explicitDisconnect (x : bool) (w : World) : World :=
  mkWorld (socket w) (connectionUrl w) (options w) (status w) x
    (messageQueue w) (authToken w) (onMessageCallback w) (onOpenCallback w)
    (onCloseCallback w) (onErrorCallback w) (onStatusChangeCallback w)
    (appStateListener w) (pendingConnects w) (trace w).

Definition set_messageQueue (x : list Message) (w : World) : World :=
  mkWorld (socket w) (connectionUrl w) (options w) (status w)
    (explicitDisconnect w) x (authToken w) (onMessageCallback w)
    (onOpenCallback w) (onCloseCallback w) (onErrorCallback w)
    (onStatusChangeCallback w) (appStateListener w) (pendingConnects w)
    (trace w).

Definition set_authToken (x : option AuthToken) (w : World) : World :=
  mkWorld (socket w) (connectionUrl w) (options w) (status w)
    (explicitDisconnect w) (messageQueue w) x (onMessageCallback w)
    (onOpenCallback w) (onCloseCallback w) (onErrorCallback w)
    (onStatusChangeCallback w) (appStateListener w) (pendingConnects w)
    (trace w).

Definition set_onMessageCallback (x : option Callback) (w : World) : World :=
  mkWorld (socket w) (connectionUrl w) (options w) (status w)
    (explicitDisconnect w) (messageQueue w) (authToken w) x (onOpenCallback w)
    (onCloseCallback w) (onErrorCallback w) (onStatusChangeCallback w)
    (appStateListener w) (pendingConnects w) (trace w).

Definition set_onOpenCallback (x : option Callback) (w : World) : World :=
  mkWorld (socket w) (connectionUrl w) (options w) (status w)
    (explicitDisconnect w) (messageQueue w) (authToken w)
    (onMessageCallback w) x (onCloseCallback w) (onErrorCallback w)
    (onStatusChangeCallback w) (appStateListener w) (pendingConnects w)
    (trace w).

Definition set_onCloseCallback (x : option Callback) (w : World) : World :=
  mkWorld (socket w) (connectionUrl w) (options w) (status w)
    (explicitDisconnect w) (messageQueue w) (authToken w)
    (onMessageCallback w) (onOpenCallback w) x (onErrorCallback w)
    (onStatusChangeCallback w) (appStateListener w) (pendingConnects w)
    (trace w).

Definition set_onErrorCallback (x : option Callback) (w : World) : World :=
  mkWorld (socket w) (connectionUrl w) (options w) (status w)
    (explicitDisconnect w) (messageQueue w) (authToken w)
    (onMessageCallback w) (onOpenCallback w) (onCloseCallback w) x
    (onStatusChangeCallback w) (appStateListener w) (pendingConnects w)
    (trace w).

Definition set_onStatusChangeCallback (x : option Callback) (w : World) : World :=
  mkWorld (socket w) (connectionUrl w) (options w) (status w)
    (explicitDisconnect w) (messageQueue w) (authToken w)
    (onMessageCallback w) (onOpenCallback w) (onCloseCallback w)
    (onErrorCallback w) x (appStateListener w) (pendingConnects w) (trace w).

Definition set_appStateListener (x : bool) (w : World) : World :=
  mkWorld (socket w) (connectionUrl w) (options w) (status w)
    (explicitDisconnect w) (messageQueue w) (authToken w)
    (onMessageCallback w) (onOpenCallback w) (onCloseCallback w)
    (onErrorCallback w) (onStatusChangeCallback w) x (pendingConnects w)
    (trace w).

Definition set_pendingConnects (x : list AuthOutcome) (w : World) : World :=
  mkWorld (socket w) (connectionUrl w) (options w) (status w)
    (explicitDisconnect w) (messageQueue w) (authToken w)
    (onMessageCallback w) (onOpenCallback w) (onCloseCallback w)
    (onErrorCallback w) (onStatusChangeCallback w) (appStateListener w) x
    (trace w).

Definition set_trace (x : list Effect) (w : World) : World :=
  mkWorld (socket w) (connectionUrl w) (options w) (status w)
    (explicitDisconnect w) (messageQueue w) (authToken w)
    (onMessageCallback w) (onOpenCallback w) (onCloseCallback w)
    (onErrorCallback w) (onStatusChangeCallback w) (appStateListener w)
    (pendingConnects w) x.

Definition log (e : Effect) (w : World) : World := set_trace (trace w ++ [e]) w.

(** JavaScript truthiness of [string | null | undefined]. *)
Definition truthy_str (s : option string) : bool :=
  match s with
  | Some s0 => negb (String.eqb s0 "")
  | None => false
  end.

Definition socket_connected (w : World) : bool :=
  match socket w with
  | Some sk => connected sk
  | None => false
  end.

(** The events handed to [socket.emit] so far. *)
Definition emitted (w : World) : list Message :=
  omap (λ e, match e with SocketEmit m => Some m | _ => None end) (trace w).

(** [private updateStatus(newStatus)] *)
Definition updateStatus (newStatus : WebSocketStatus) (w : World) : World :=
  if bool_decide (status w ≠ newStatus) then
    let w1 := set_status newStatus w in
    match onStatusChangeCallback w1 with
    | Some cb => log (StatusChangeCalled (cb_id cb) (status w1)) w1
    | None => w1
    end
  else w.

(** [public getStatus()] *)
Definition getStatus (w : World) : WebSocketStatus := status w.

(** How a call completes. *)
Inductive Completion := Normal | Threw.

(** [public setOnStatusChange(callback)]: the callback is called outside any
    [try], so its exception reaches the caller. *)
Definition setOnStatusChange (callback : Callback) (w : World) : Completion * World :=
  let w1 := set_onStatusChangeCallback (Some callback) w in
  let w2 := log (StatusChangeCalled (cb_id callback) (status w1)) w1 in
  (if cb_throws callback then Threw else Normal, w2).

Definition setOnMessage (callback : Callback) (w : World) : World :=
  set_onMessageCallback (Some callback) w.
Definition setOnOpen (callback : Callback) (w : World) : World :=
  set_onOpenCallback (Some callback) w.
Definition setOnClose (callback : Callback) (w : World) : World :=
  set_onCloseCallback (Some callback) w.
Definition setOnError (callback : Callback) (w : World) : World :=
  set_onErrorCallback (Some callback) w.
Definition setAuthToken (token : option AuthToken) (w : World) : World :=
  set_authToken token w.

(** [on(eventName, callback)] and [off(eventName, callback)] hand the listener
    to the socket and keep nothing in the service. *)

(** [private handleError(error)] *)
Definition handleError (message : string) (w : World) : World :=
  match onErrorCallback w with
  | Some cb => log (ErrorCalled (cb_id cb) message) w
  | None => w
  end.

(** [private async getAuthData()], up to the report of a failure. *)
Definition getAuthData (w : World) : AuthOutcome :=
  match authToken w with
  | None => AuthData None
  | Some (TokenString token) =>
      if truthy_str (Some token) then AuthData (Some token) else AuthData None
  | Some (TokenFunction (Some token)) =>
      if truthy_str (Some token) then AuthData (Some token) else AuthData None
  | Some (TokenFunction None) => AuthFailed
  end.

(** The handler [setupEventHandlers] registers for 'disconnect'. *)
Definition on_disconnect (reason : string) (w : World) : World :=
  let w1 := updateStatus CLOSED w in
  let wasExplicit := String.eqb reason "io client disconnect" in
  let w2 :=
    if negb wasExplicit && reconnection (options w1) then w1
    else if wasExplicit then set_explicitDisconnect true w1 else w1 in
  match onCloseCallback w2 with
  | Some cb => log (CloseCalled (cb_id cb) reason) w2
  | None => w2
  end.

(** The library taking the socket down: [connected] is false when the
    'disconnect' handler runs. *)
Definition lib_fire_disconnect (reason : string) (w : World) : World :=
  match socket w with
  | Some sk =>
      on_disconnect reason (set_socket (Some (mkSocket false false (anyListener sk))) w)
  | None => w
  end.

(** [this.socket.disconnect()]. The source relies on this contract:
    "Socket.IO's disconnect triggers the 'disconnect' event with reason
    'io client disconnect'"; a socket that is not connected has nothing to
    report. *)
Definition lib_socket_disconnect (w : World) : World :=
  match socket w with
  | Some sk =>
      let w1 := log SocketDisconnect w in
      if connected sk then lib_fire_disconnect "io client disconnect" w1
      else set_socket (Some (mkSocket false false (anyListener sk))) w1
  | None => w
  end.

(** What one call of [socket.emit] does besides sending: it may throw (with
    the message of the error), and the connection may drop inside the call
    (with the reason handed to the 'disconnect' handler). *)
Record EmitOutcome := mkEmitOutcome {
  emit_throws : option string;
  emit_disconnects : option string
}.

Definition emit_ok : EmitOutcome := mkEmitOutcome None None.

Section WithLibrary.

(** The behaviour of the n-th call of [socket.emit] (counting from 0). *)
Variable lib_emit : nat → EmitOutcome.

(** [public sendMessage(eventName, ...args)] *)
Definition sendMessage (eventName : string) (args : list string) (w : World)
  : bool * World :=
  if socket_connected w then
    let outcome := lib_emit (length (emitted w)) in
    let w1 := log (SocketEmit (mkMessage eventName args)) w in
    let w2 := match emit_disconnects outcome with
              | Some reason => lib_fire_disconnect reason w1
              | None => w1
              end in
    match emit_throws outcome with
    | None => (true, w2)
    | Some message => (false, handleError message w2)
    end
  else if queueMessages (options w) then
    (false, set_messageQueue (messageQueue w ++ [mkMessage eventName args]) w)
  else
    (false, handleError ("Cannot emit event '" +:+ eventName +:+
                         "', socket state is " +:+ status_name (status w)) w).

(** The [while] loop of [processMessageQueue]; [None] when the fuel is used
    up before the loop is left. *)
Fixpoint drain (fuel : nat) (w : World) : option World :=
  match fuel with
  | O => None
  | S fuel' =>
      match messageQueue w with
      | [] => Some w
      | item :: rest =>
          (* const item = this.messageQueue.shift() *)
          let w1 := set_messageQueue rest w in
          let (sent, w2) := sendMessage (event item) (data item) w1 in
          if negb sent && negb (socket_connected w2)
          then (* this.messageQueue.unshift(item); break *)
               Some (set_messageQueue (item :: messageQueue w2) w2)
          else drain fuel' w2
      end
  end.

(** [private processMessageQueue()] *)
Definition processMessageQueue (w : World) : option World :=
  if queueMessages (options w) && socket_connected w
  then drain (length (messageQueue w) + 1) w
  else Some w.

(** The handler registered for 'connect'. *)
Definition on_connect (w : World) : option World :=
  w1 ← processMessageQueue (updateStatus OPEN w);
  Some match onOpenCallback w1 with
       | Some cb => log (OpenCalled (cb_id cb)) w1
       | None => w1
       end.

(** The handlers for 'connect_error', 'reconnect_attempt',
    'reconnect_failed', 'reconnect_error', 'error' and 'message'. *)
Definition on_connect_error (message : string) (w : World) : World :=
  handleError message (updateStatus RECONNECTING w).
Definition on_reconnect_attempt (attempt : nat) (w : World) : World :=
  updateStatus RECONNECTING w.
Definition on_reconnect_failed (w : World) : World :=
  handleError "Reconnection failed" (updateStatus CLOSED w).
Definition on_reconnect_error (message : string) (w : World) : World :=
  handleError message (updateStatus RECONNECTING w).
Definition on_error (message : string) (w : World) : World :=
  handleError message w.
Definition on_message (args : list string) (w : World) : World :=
  match onMessageCallback w with
  | Some cb => log (MessageCalled (cb_id cb) "message" args) w
  | None => w
  end.

Definition reserved_events : list string :=
  ["connect"; "disconnect"; "connect_error"; "reconnect_attempt";
   "reconnect_failed"; "reconnect_error"; "error"].

(** The [onAny] listener, present when a message callback was set at the time
    of [setupEventHandlers]. *)
Definition on_any (ev : string) (args : list string) (w : World) : World :=
  if bool_decide (ev ∈ reserved_events) then w
  else match onMessageCallback w with
       | Some cb => log (MessageCalled (cb_id cb) ev args) w
       | None => w
       end.

(** What [io()] and [socket.connect()] do when [connect] resumes: both go
    through (the new socket shows the given [connecting] flag), or one of
    them throws. *)
Inductive IoOutcome :=
| IoOk (connecting0 : bool)
| IoThrows (message : string)
| SocketConnectThrows (connecting0 : bool) (message : string).

(** [public async connect(url?)], from the call to the suspension at
    [await this.getAuthData()] (or to an early [return]). *)
Definition connect_sync (url : option string) (w : World) : World :=
  let w1 := if truthy_str url then set_connectionUrl url w else w in
  if negb (truthy_str (connectionUrl w1)) then
    handleError "Connection URL not provided" w1
  else
    let proceed (w2 : World) : World :=
      let w3 := updateStatus CONNECTING (set_explicitDisconnect false w2) in
      set_pendingConnects (pendingConnects w3 ++ [getAuthData w3]) w3 in
    match socket w1 with
    | Some sk =>
        if connected sk then w1
        else if connecting sk then w1
        else proceed (set_socket None (lib_socket_disconnect w1))
    | None => proceed w1
    end.

(** [connect] from the point where the oldest suspended call resumes. *)
Definition connect_resume (io : IoOutcome) (w : World) : World :=
  match pendingConnects w with
  | [] => w
  | auth :: rest =>
      let w1 := set_pendingConnects rest w in
      let w2 := match auth with
                | AuthFailed => handleError "Failed to get auth token" w1
                | AuthData _ => w1
                end in
      let token := match auth with AuthData t => t | AuthFailed => None end in
      let created (connecting0 : bool) : World :=
        (* this.socket = io(...); this.setupEventHandlers(); this.socket.connect() *)
        let sk := mkSocket false connecting0
                           (bool_decide (is_Some (onMessageCallback w2))) in
        log SocketConnect
          (log SocketRemoveAllListeners
             (set_socket (Some sk)
                (log (IoCreated (default "" (connectionUrl w2)) token) w2))) in
      match io with
      | IoOk connecting0 => created connecting0
      | IoThrows message =>
          updateStatus CLOSED
            (handleError message
               (log (IoCreated (default "" (connectionUrl w2)) token) w2))
      | SocketConnectThrows connecting0 message =>
          updateStatus CLOSED (handleError message (created connecting0))
      end
  end.

(** [public disconnect(preventReconnect = true)] *)
Definition disconnect (preventReconnect : bool) (w : World) : World :=
  let w1 := if preventReconnect then set_explicitDisconnect true w else w in
  match socket w1 with
  | Some sk =>
      if connected sk || connecting sk then
        lib_socket_disconnect (updateStatus CLOSING w1)
      else if preventReconnect then set_explicitDisconnect true w1 else w1
  | None =>
      let w2 := updateStatus CLOSED w1 in
      if preventReconnect then set_explicitDisconnect true w2 else w2
  end.

(** [public cleanup()] *)
Definition cleanup (w : World) : World :=
  let w1 := disconnect true (set_appStateListener false w) in
  let w2 := match socket w1 with
            | Some _ => log SocketRemoveAllListeners w1
            | None => w1
            end in
  set_messageQueue []
    (set_onStatusChangeCallback None
       (set_onErrorCallback None
          (set_onCloseCallback None
             (set_onOpenCallback None
                (set_onMessageCallback None (set_socket None w2)))))).

(** React Native's [AppStateStatus]. *)
Inductive AppStateStatus := active | background | inactive | unknown | extension.

(** [private handleAppStateChange = (nextAppState) => ...]; its call of
    [this.connect()] is not awaited, so the handler returns at the
    suspension of [connect]. *)
Definition handleAppStateChange (nextAppState : AppStateStatus) (w : World) : World :=
  match socket w with
  | Some sk =>
      match nextAppState with
      | active =>
          if negb (connected sk) && negb (explicitDisconnect w)
             && reconnection (options w)
          then connect_sync None w
          else w
      | _ => w
      end
  | None => w
  end.

(** [constructor(url?, options = {})] *)
Definition new (url : option string) (o : WebSocketServiceOptions) : World :=
  let w0 := mkWorld None None (merge_options o) CLOSED false [] None
                    None None None None None false [] [] in
  let w1 :=
    if truthy_str url then
      let w := set_connectionUrl url w0 in
      if autoConnect (options w) then connect_sync url w else w
    else w0 in
  set_appStateListener true w1.

(** Events the socket library delivers to the handlers of the socket the
    service holds. *)
Inductive SocketEvent :=
| EvConnect
| EvDisconnect (reason : string)
| EvConnectError (message : string)
| EvReconnectAttempt (attempt : nat)
| EvReconnectFailed
| EvReconnectError (message : string)
| EvError (message : string)
| EvMessage (args : list string)
| EvOther (ev : string) (args : list string).

Definition deliver (e : SocketEvent) (w : World) : option World :=
  match socket w with
  | None => Some w
  | Some sk =>
      match e with
      | EvConnect =>
          on_connect (set_socket (Some (mkSocket true false (anyListener sk))) w)
      | EvDisconnect reason => Some (lib_fire_disconnect reason w)
      | EvConnectError message => Some (on_connect_error message w)
      | EvReconnectAttempt attempt => Some (on_reconnect_attempt attempt w)
      | EvReconnectFailed => Some (on_reconnect_failed w)
      | EvReconnectError message => Some (on_reconnect_error message w)
      | EvError message => Some (on_error message w)
      | EvMessage args =>
          Some (on_message args
                  (if anyListener sk then on_any "message" args w else w))
      | EvOther ev args =>
          Some (if anyListener sk then on_any ev args w else w)
      end
  end.

(** *** Actions and runs *)

(** What can happen to a service: the client's calls, the resumption of a
    suspended [connect], an app-state change, an event of the socket, and
    the library changing the [connecting] flag of the socket. *)
Inductive Action :=
| SetOnMessage (callback : Callback)
| SetOnOpen (callback : Callback)
| SetOnClose (callback : Callback)
| SetOnError (callback : Callback)
| SetOnStatusChange (callback : Callback)
| SetAuthToken (token : option AuthToken)
| Connect (url : option string)
| ConnectResume (io : IoOutcome)
| SendMessage (eventName : string) (args : list string)
| Disconnect (preventReconnect : bool)
| Cleanup
| AppStateChange (nextAppState : AppStateStatus)
| SocketEvt (e : SocketEvent)
| LibConnecting (b : bool).

(** AppState calls the handler while it is registered. *)
Definition appStateChanged (nextAppState : AppStateStatus) (w : World) : World :=
  if appStateListener w then handleAppStateChange nextAppState w else w.

Definition lib_setConnecting (b : bool) (w : World) : World :=
  match socket w with
  | Some sk => set_socket (Some (mkSocket (connected sk) b (anyListener sk))) w
  | None => w
  end.

Definition step (a : Action) (w : World) : option World :=
  match a with
  | SetOnMessage callback => Some (setOnMessage callback w)
  | SetOnOpen callback => Some (setOnOpen callback w)
  | SetOnClose callback => Some (setOnClose callback w)
  | SetOnError callback => Some (setOnError callback w)
  | SetOnStatusChange callback => Some (snd (setOnStatusChange callback w))
  | SetAuthToken token => Some (setAuthToken token w)
  | Connect url => Some (connect_sync url w)
  | ConnectResume io => Some (connect_resume io w)
  | SendMessage eventName args => Some (snd (sendMessage eventName args w))
  | Disconnect preventReconnect => Some (disconnect preventReconnect w)
  | Cleanup => Some (cleanup w)
  | AppStateChange nextAppState => Some (appStateChanged nextAppState w)
  | SocketEvt e => deliver e w
  | LibConnecting b => Some (lib_setConnecting b w)
  end.

Fixpoint run (acts : list Action) (w : World) : option World :=
  match acts with
  | [] => Some w
  | a :: acts' => w1 ← step a w; run acts' w1
  end.

(** The states of a service created by [new WebSocketService(url, o)]. *)
Inductive reachable : World → Prop :=
| reachable_new (url : option string) (o : WebSocketServiceOptions) :
    reachable (new url o)
| reachable_step (a : Action) (w w' : World) :
    reachable w → step a w = Some w' → reachable w'.

(** *** What the building blocks leave alone *)

Ltac ws_cases :=
  repeat first
    [ progress simpl in *
    | case_bool_decide
    | case_match ];
  try done.

Lemma updateStatus_frame (st : WebSocketStatus) (w : World) :
  socket (updateStatus st w) = socket w ∧
  connectionUrl (updateStatus st w) = connectionUrl w ∧
  options (updateStatus st w) = options w ∧
  explicitDisconnect (updateStatus st w) = explicitDisconnect w ∧
  messageQueue (updateStatus st w) = messageQueue w ∧
  pendingConnects (updateStatus st w) = pendingConnects w ∧
  emitted (updateStatus st w) = emitted w.
Proof.
  unfold updateStatus, emitted, log. ws_cases.
  rewrite omap_app, app_nil_r. done.
Qed.

Lemma handleError_frame (message : string) (w : World) :
  socket (handleError message w) = socket w ∧
  connectionUrl (handleError message w) = connectionUrl w ∧
  options (handleError message w) = options w ∧
  explicitDisconnect (handleError message w) = explicitDisconnect w ∧
  messageQueue (handleError message w) = messageQueue w ∧
  pendingConnects (handleError message w) = pendingConnects w ∧
  emitted (handleError message w) = emitted w.
Proof.
  unfold handleError, emitted, log. ws_cases.
  rewrite omap_app, app_nil_r. done.
Qed.

Lemma emitted_log_other (e : Effect) (w : World) :
  (∀ m, e ≠ SocketEmit m) → emitted (log e w) = emitted w.
Proof.
  intros He. unfold emitted, log. simpl. rewrite omap_app. simpl.
  destruct e; try by rewrite app_nil_r.
  by destruct (He m).
Qed.

Lemma emitted_log_emit (m : Message) (w : World) :
  emitted (log (SocketEmit m) w) = emitted w ++ [m].
Proof. unfold emitted, log. simpl. by rewrite omap_app. Qed.

Lemma on_disconnect_frame (reason : string) (w : World) :
  socket (on_disconnect reason w) = socket w ∧
  connectionUrl (on_disconnect reason w) = connectionUrl w ∧
  options (on_disconnect reason w) = options w ∧
  (explicitDisconnect w = true → explicitDisconnect (on_disconnect reason w) = true) ∧
  messageQueue (on_disconnect reason w) = messageQueue w ∧
  pendingConnects (on_disconnect reason w) = pendingConnects w ∧
  emitted (on_disconnect reason w) = emitted w.
Proof.
  destruct (updateStatus_frame CLOSED w) as (Hs & Hu & Ho & He & Hq & Hp & Hm).
  unfold on_disconnect.
  set (w1 := updateStatus CLOSED w) in *.
  assert (Hem : ∀ w0 cb, emitted (log (CloseCalled cb reason) w0) = emitted w0)
    by (intros; by apply emitted_log_other).
  destruct (onCloseCallback _) eqn:Hcb; rewrite ?Hem;
    repeat case_match; simpl; rewrite ?Hs, ?Hu, ?Ho, ?He, ?Hq, ?Hp; done.
Qed.

Lemma lib_fire_disconnect_frame (reason : string) (w : World) :
  socket_connected (lib_fire_disconnect reason w) = false ∧
  (is_Some (socket (lib_fire_disconnect reason w)) ↔ is_Some (socket w)) ∧
  connectionUrl (lib_fire_disconnect reason w) = connectionUrl w ∧
  options (lib_fire_disconnect reason w) = options w ∧
  (explicitDisconnect w = true →
   explicitDisconnect (lib_fire_disconnect reason w) = true) ∧
  messageQueue (lib_fire_disconnect reason w) = messageQueue w ∧
  pendingConnects (lib_fire_disconnect reason w) = pendingConnects w ∧
  emitted (lib_fire_disconnect reason w) = emitted w.
Proof.
  unfold lib_fire_disconnect, socket_connected.
  destruct (socket w) as [sk |] eqn:Hsk.
  - destruct (on_disconnect_frame reason
                (set_socket (Some (mkSocket false false (anyListener sk))) w))
      as (-> & -> & -> & He & -> & -> & ->).
    simpl in *. repeat split; eauto.
  - rewrite ?Hsk. repeat split; eauto.
Qed.

Lemma lib_socket_disconnect_frame (w : World) :
  socket_connected (lib_socket_disconnect w) = false ∧
  (is_Some (socket (lib_socket_disconnect w)) ↔ is_Some (socket w)) ∧
  connectionUrl (lib_socket_disconnect w) = connectionUrl w ∧
  options (lib_socket_disconnect w) = options w ∧
  (explicitDisconnect w = true → explicitDisconnect (lib_socket_disconnect w) = true) ∧
  messageQueue (lib_socket_disconnect w) = messageQueue w ∧
  pendingConnects (lib_socket_disconnect w) = pendingConnects w ∧
  emitted (lib_socket_disconnect w) = emitted w.
Proof.
  unfold lib_socket_disconnect.
  destruct (socket w) as [sk |] eqn:Hsk;
    [| unfold socket_connected; rewrite Hsk; repeat split; eauto].
  destruct (connected sk).
  - destruct (lib_fire_disconnect_frame "io client disconnect" (log SocketDisconnect w))
      as (Hc & Hs & Hu & Ho & He & Hq & Hp & Hm).
    rewrite Hc, Hu, Ho, Hq, Hp, Hm, emitted_log_other by done.
    simpl in *. rewrite Hsk in Hs. repeat split; eauto; apply Hs.
  - pose proof (emitted_log_other SocketDisconnect w) as Hm.
    unfold socket_connected, emitted in *. simpl in *.
    rewrite Hm by done. repeat split; eauto.
Qed.

(** *** [sendMessage] *)

Lemma sendMessage_connected (eventName : string) (args : list string) (w : World) :
  socket_connected w = true →
  fst (sendMessage eventName args w)
    = bool_decide (emit_throws (lib_emit (length (emitted w))) = None) ∧
  socket_connected (snd (sendMessage eventName args w))
    = bool_decide (emit_disconnects (lib_emit (length (emitted w))) = None) ∧
  emitted (snd (sendMessage eventName args w))
    = emitted w ++ [mkMessage eventName args] ∧
  messageQueue (snd (sendMessage eventName args w)) = messageQueue w ∧
  options (snd (sendMessage eventName args w)) = options w ∧
  (is_Some (socket (snd (sendMessage eventName args w))) ↔ is_Some (socket w)) ∧
  connectionUrl (snd (sendMessage eventName args w)) = connectionUrl w ∧
  pendingConnects (snd (sendMessage eventName args w)) = pendingConnects w ∧
  (explicitDisconnect w = true →
   explicitDisconnect (snd (sendMessage eventName args w)) = true).
Proof.
  intros Hconn. unfold sendMessage. rewrite Hconn.
  set (outcome := lib_emit (length (emitted w))).
  set (w1 := log (SocketEmit (mkMessage eventName args)) w).
  assert (H1 : socket_connected w1 = true ∧ emitted w1 = emitted w ++ [mkMessage eventName args]).
  { split; [exact Hconn | apply emitted_log_emit]. }
  destruct H1 as [Hc1 He1].
  set (w2 := match emit_disconnects outcome with
             | Some reason => lib_fire_disconnect reason w1
             | None => w1
             end).
  assert (H2 : socket_connected w2 = bool_decide (emit_disconnects outcome = None) ∧
               emitted w2 = emitted w1 ∧ messageQueue w2 = messageQueue w ∧
               options w2 = options w ∧
               (is_Some (socket w2) ↔ is_Some (socket w)) ∧
               connectionUrl w2 = connectionUrl w ∧
               pendingConnects w2 = pendingConnects w ∧
               (explicitDisconnect w = true → explicitDisconnect w2 = true)).
  { unfold w2. destruct (emit_disconnects outcome) as [reason |].
    - destruct (lib_fire_disconnect_frame reason w1)
        as (-> & Hs & -> & -> & He & -> & -> & ->).
      repeat split; try done; apply Hs.
    - rewrite Hc1. repeat split; done. }
  destruct H2 as (Hc2 & He2 & Hq2 & Ho2 & Hs2 & Hu2 & Hp2 & Hx2).
  destruct (emit_throws outcome) as [message |]; simpl.
  - destruct (handleError_frame message w2) as (Hs & -> & -> & -> & -> & -> & ->).
    unfold socket_connected in *. rewrite Hs.
    rewrite Hc2, He2, He1. repeat split; try done; apply Hs2.
  - rewrite Hc2, He2, He1. repeat split; try done; apply Hs2.
Qed.


Lemma sendMessage_not_connected (eventName : string) (args : list string) (w : World) :
  socket_connected w = false →
  fst (sendMessage eventName args w) = false ∧
  socket_connected (snd (sendMessage eventName args w)) = false.
Proof.
  intros Hconn. unfold sendMessage. rewrite Hconn.
  destruct (queueMessages (options w)); simpl; [done |].
  split; [done |]. unfold socket_connected in *.
  by destruct (handleError_frame
    ("Cannot emit event '" +:+ eventName +:+ "', socket state is " +:+
     status_name (status w)) w) as (-> & _).
Qed.

Lemma sendMessage_frame (eventName : string) (args : list string) (w : World) :
  options (snd (sendMessage eventName args w)) = options w ∧
  (is_Some (socket (snd (sendMessage eventName args w))) ↔ is_Some (socket w)) ∧
  connectionUrl (snd (sendMessage eventName args w)) = connectionUrl w ∧
  pendingConnects (snd (sendMessage eventName args w)) = pendingConnects w ∧
  (explicitDisconnect w = true →
   explicitDisconnect (snd (sendMessage eventName args w)) = true).
Proof.
  destruct (socket_connected w) eqn:Hconn.
  - destruct (sendMessage_connected eventName args w Hconn)
      as (_ & _ & _ & _ & ? & ? & ? & ? & ?). done.
  - unfold sendMessage. rewrite Hconn.
    destruct (queueMessages (options w)); simpl; [done |].
    destruct (handleError_frame
      ("Cannot emit event '" +:+ eventName +:+ "', socket state is " +:+
       status_name (status w)) w) as (-> & -> & -> & -> & _ & -> & _). done.
Qed.

(** *** The drain loop *)

Lemma drain_preserves (P : World → Prop) :
  (∀ q w, P w → P (set_messageQueue q w)) →
  (∀ eventName args w, P w → P (snd (sendMessage eventName args w))) →
  ∀ fuel w w', P w → drain fuel w = Some w' → P w'.
Proof.
  intros Hset Hsend. induction fuel as [| fuel IH]; intros w w' HP; simpl; [done |].
  destruct (messageQueue w) as [| item rest]; [by intros [= <-] |].
  pose proof (Hsend (event item) (data item) _ (Hset rest w HP)) as HP2.
  destruct (sendMessage (event item) (data item) (set_messageQueue rest w))
    as [sent w2]. simpl in HP2.
  destruct (negb sent && negb (socket_connected w2)).
  - intros [= <-]. by apply Hset.
  - by apply IH.
Qed.

(** Every pass through the loop takes one event off the queue or leaves the
    loop, so the loop is left before the fuel [length queue + 1] is used up. *)
Lemma drain_total :
  ∀ fuel w, length (messageQueue w) < fuel → is_Some (drain fuel w).
Proof.
  induction fuel as [| fuel IH]; intros w Hfuel; [lia |]. simpl.
  destruct (messageQueue w) as [| item rest] eqn:Hq; [done |].
  set (w1 := set_messageQueue rest w).
  destruct (socket_connected w1) eqn:Hconn.
  - destruct (sendMessage_connected (event item) (data item) w1 Hconn)
      as (_ & _ & _ & Hq2 & _).
    destruct (sendMessage (event item) (data item) w1) as [sent w2]. simpl in Hq2.
    destruct (negb sent && negb (socket_connected w2)); [done |].
    apply IH. rewrite Hq2. simpl in *. lia.
  - destruct (sendMessage_not_connected (event item) (data item) w1 Hconn)
      as [Hsent Hc2].
    destruct (sendMessage (event item) (data item) w1) as [sent w2].
    simpl in Hsent, Hc2. by rewrite Hsent, Hc2.
Qed.

Lemma message_eta (m : Message) : mkMessage (event m) (data m) = m.
Proof. by destruct m. Qed.






(** *** The explicit-disconnect flag *)



Lemma disconnect_explicit (preventReconnect : bool) (w : World) :
  (preventReconnect = true ∨ explicitDisconnect w = true) →
  explicitDisconnect (disconnect preventReconnect w) = true.
Proof.
  intros Hor. unfold disconnect.
  set (w1 := if preventReconnect then set_explicitDisconnect true w else w).
  assert (H1 : explicitDisconnect w1 = true).
  { unfold w1. destruct preventReconnect; [done |]. by destruct Hor. }
  destruct (socket w1) as [sk |].
  - destruct (connected sk || connecting sk).
    + apply lib_socket_disconnect_frame.
      by destruct (updateStatus_frame CLOSING w1) as (_ & _ & _ & -> & _).
    + by destruct preventReconnect.
  - destruct preventReconnect; [done |].
    by destruct (updateStatus_frame CLOSED w1) as (_ & _ & _ & -> & _).
Qed.





(** Every action returns. *)
Lemma ws_step_total (a : Action) (w : World) : is_Some (step a w).
Proof.
  destruct a; simpl; try done.
  unfold deliver. destruct (socket w) as [sk |]; [| done].
  destruct e; try done.
  unfold on_connect, processMessageQueue.
  set (w0 := updateStatus OPEN _).
  destruct (queueMessages (options w0) && socket_connected w0); [| done].
  destruct (drain_total (length (messageQueue w0) + 1) w0) as [w1 ->]; [lia |].
  done.
Qed.



(** *** Every change of the status reaches the callback *)

(** The statuses the status callback has been called with, oldest first. *)
Definition notified (w : World) : list WebSocketStatus :=
  omap (λ e, match e with StatusChangeCalled _ st => Some st | _ => None end)
       (trace w).

(** [l] lists, in order, the values a status took when it went from [s0] to
    [s1], each one different from the value before it. *)
Fixpoint changes (s0 : WebSocketStatus) (l : list WebSocketStatus)
    (s1 : WebSocketStatus) : Prop :=
  match l with
  | [] => s0 = s1
  | st :: l' => s0 ≠ st ∧ changes st l' s1
  end.

(** From [w] to [w'] the registered callback stayed the same and was called
    with exactly the changes of the status, once each, in order (and without
    a callback nothing was called). *)
Definition told (w w' : World) : Prop :=
  onStatusChangeCallback w' = onStatusChangeCallback w ∧
  match onStatusChangeCallback w with
  | Some _ => ∃ l, notified w' = notified w ++ l ∧ changes (status w) l (status w')
  | None => notified w' = notified w
  end.

Lemma changes_app (l1 l2 : list WebSocketStatus) :
  ∀ s0 s1 s2, changes s0 l1 s1 → changes s1 l2 s2 → changes s0 (l1 ++ l2) s2.
Proof.
  induction l1 as [| st l1 IH]; simpl; intros s0 s1 s2 H1 H2.
  - by subst.
  - destruct H1 as [Hne H1]. split; [done |]. by apply (IH st s1).
Qed.

Lemma told_quiet (w w' : World) :
  onStatusChangeCallback w' = onStatusChangeCallback w →
  status w' = status w → notified w' = notified w → told w w'.
Proof.
  intros Hcb Hst Hn. split; [done |].
  destruct (onStatusChangeCallback w); [| done].
  exists []. by rewrite app_nil_r.
Qed.

Lemma told_refl (w : World) : told w w.
Proof. by apply told_quiet. Qed.

Lemma told_trans (w1 w2 w3 : World) : told w1 w2 → told w2 w3 → told w1 w3.
Proof.
  intros [Hcb12 H12] [Hcb23 H23]. split; [congruence |].
  rewrite Hcb12 in H23.
  destruct (onStatusChangeCallback w1); [| congruence].
  destruct H12 as (l1 & Hn1 & Hc1). destruct H23 as (l2 & Hn2 & Hc2).
  exists (l1 ++ l2). split; [by rewrite Hn2, Hn1, app_assoc |].
  by apply (changes_app l1 l2 _ (status w2)).
Qed.

Lemma notified_log_other (e : Effect) (w : World) :
  (∀ cb st, e ≠ StatusChangeCalled cb st) → notified (log e w) = notified w.
Proof.
  intros He. unfold notified, log. simpl. rewrite omap_app. simpl.
  destruct e; try by rewrite app_nil_r.
  by destruct (He cb st).
Qed.

Lemma log_told (e : Effect) (w : World) :
  (∀ cb st, e ≠ StatusChangeCalled cb st) → told w (log e w).
Proof. intros He. apply told_quiet; [done | done | by apply notified_log_other]. Qed.

Lemma updateStatus_told (st : WebSocketStatus) (w : World) :
  told w (updateStatus st w).
Proof.
  unfold updateStatus. case_bool_decide as Hne; [| apply told_refl].
  simpl. destruct (onStatusChangeCallback w) as [cb |] eqn:Hcb.
  - unfold told. simpl. rewrite Hcb. split; [done |].
    exists [st]. split; [| done].
    unfold notified. simpl. by rewrite omap_app.
  - unfold told. simpl. by rewrite Hcb.
Qed.

Lemma handleError_told (message : string) (w : World) :
  told w (handleError message w).
Proof.
  unfold handleError. destruct (onErrorCallback w); [| apply told_refl].
  by apply log_told.
Qed.

Lemma on_disconnect_told (reason : string) (w : World) :
  told w (on_disconnect reason w).
Proof.
  unfold on_disconnect.
  eapply told_trans; [apply (updateStatus_told CLOSED) |].
  set (w1 := updateStatus CLOSED w).
  set (w2 := if negb _ && _ then w1 else _).
  assert (H2 : told w1 w2).
  { unfold w2. repeat case_match; try apply told_refl. by apply told_quiet. }
  eapply told_trans; [exact H2 |].
  destruct (onCloseCallback w2); [by apply log_told | apply told_refl].
Qed.

Lemma lib_fire_disconnect_told (reason : string) (w : World) :
  told w (lib_fire_disconnect reason w).
Proof.
  unfold lib_fire_disconnect. destruct (socket w) as [sk |]; [| apply told_refl].
  eapply told_trans; [| apply on_disconnect_told]. by apply told_quiet.
Qed.

Lemma lib_socket_disconnect_told (w : World) : told w (lib_socket_disconnect w).
Proof.
  unfold lib_socket_disconnect. destruct (socket w) as [sk |]; [| apply told_refl].
  eapply told_trans; [apply (log_told SocketDisconnect); done |].
  destruct (connected sk); [apply lib_fire_disconnect_told | by apply told_quiet].
Qed.

Lemma sendMessage_told (eventName : string) (args : list string) (w : World) :
  told w (snd (sendMessage eventName args w)).
Proof.
  unfold sendMessage. destruct (socket_connected w).
  - set (w1 := log _ w).
    assert (H1 : told w w1) by (by apply log_told).
    set (w2 := match emit_disconnects _ with
               | Some reason => lib_fire_disconnect reason w1
               | None => w1
               end).
    assert (H2 : told w w2).
    { eapply told_trans; [exact H1 |]. unfold w2.
      destruct (emit_disconnects _); [apply lib_fire_disconnect_told | apply told_refl]. }
    destruct (emit_throws _); simpl; [| done].
    eapply told_trans; [exact H2 | apply handleError_told].
  - destruct (queueMessages (options w)); simpl.
    + by apply told_quiet.
    + apply handleError_told.
Qed.

Lemma deliver_told (e : SocketEvent) (w w' : World) :
  deliver e w = Some w' → told w w'.
Proof.
  unfold deliver. destruct (socket w) as [sk |]; [| intros [= <-]; apply told_refl].
  destruct e; try (intros [= <-]).
  - unfold on_connect.
    set (w0 := updateStatus OPEN _).
    assert (H0 : told w w0).
    { eapply told_trans; [| apply updateStatus_told]. by apply told_quiet. }
    unfold processMessageQueue.
    destruct (queueMessages (options w0) && socket_connected w0).
    + destruct (drain _ w0) as [w1 |] eqn:Hd; simpl; [| done].
      intros [= <-].
      assert (H1 : told w w1).
      { revert Hd. apply (drain_preserves (told w)); [| | done].
        - intros q w2 H2. eapply told_trans; [exact H2 | by apply told_quiet].
        - intros ev args w2 H2. eapply told_trans; [exact H2 | apply sendMessage_told]. }
      destruct (onOpenCallback w1); [| done].
      eapply told_trans; [exact H1 | by apply log_told].
    + simpl. intros [= <-]. destruct (onOpenCallback w0); [| done].
      eapply told_trans; [exact H0 | by apply log_told].
  - apply lib_fire_disconnect_told.
  - eapply told_trans; [apply (updateStatus_told RECONNECTING) | apply handleError_told].
  - apply updateStatus_told.
  - eapply told_trans; [apply (updateStatus_told CLOSED) | apply handleError_told].
  - eapply told_trans; [apply (updateStatus_told RECONNECTING) | apply handleError_told].
  - apply handleError_told.
  - unfold on_message, on_any.
    repeat case_match; try apply told_refl; try (by apply log_told).
    eapply told_trans; by apply log_told.
  - unfold on_any. repeat case_match; try apply told_refl; by apply log_told.
Qed.

Lemma connect_sync_told (url : option string) (w : World) :
  told w (connect_sync url w).
Proof.
  unfold connect_sync.
  set (w1 := if truthy_str url then set_connectionUrl url w else w).
  assert (H1 : told w w1).
  { unfold w1. destruct (truthy_str url); [by apply told_quiet | apply told_refl]. }
  assert (Hall : ∀ w2, told w w2 →
            told w (set_pendingConnects
                      (pendingConnects (updateStatus CONNECTING (set_explicitDisconnect false w2))
                       ++ [getAuthData (updateStatus CONNECTING (set_explicitDisconnect false w2))])
                      (updateStatus CONNECTING (set_explicitDisconnect false w2)))).
  { intros w2 H2.
    eapply told_trans; [| by apply told_quiet].
    eapply told_trans; [| apply updateStatus_told].
    eapply told_trans; [exact H2 | by apply told_quiet]. }
  destruct (truthy_str (connectionUrl w1)); simpl.
  - destruct (socket w1) as [sk |]; [| by apply Hall].
    destruct (connected sk); [done |]. destruct (connecting sk); [done |].
    apply Hall.
    eapply told_trans; [| by apply told_quiet].
    eapply told_trans; [exact H1 | apply lib_socket_disconnect_told].
  - eapply told_trans; [exact H1 | apply handleError_told].
Qed.

Lemma connect_resume_told (io : IoOutcome) (w : World) :
  told w (connect_resume io w).
Proof.
  unfold connect_resume.
  destruct (pendingConnects w) as [| auth rest]; [apply told_refl |].
  set (w1 := set_pendingConnects rest w).
  set (w2 := match auth with
             | AuthData _ => w1
             | AuthFailed => handleError "Failed to get auth token" w1
             end).
  assert (H2 : told w w2).
  { eapply (told_trans _ w1); [by apply told_quiet |].
    unfold w2. destruct auth; [apply told_refl | apply handleError_told]. }
  set (token := match auth with AuthData t => t | AuthFailed => None end).
  assert (Hcreated : ∀ c, told w
            (log SocketConnect
               (log SocketRemoveAllListeners
                  (set_socket
                     (Some (mkSocket false c (bool_decide (is_Some (onMessageCallback w2)))))
                     (log (IoCreated (default "" (connectionUrl w2)) token) w2))))).
  { intros c.
    eapply told_trans; [| by apply log_told].
    eapply told_trans; [| by apply log_told].
    eapply told_trans; [| by apply told_quiet].
    eapply told_trans; [exact H2 | by apply log_told]. }
  destruct io as [c | message | c message].
  - apply Hcreated.
  - eapply told_trans; [| apply updateStatus_told].
    eapply told_trans; [| apply handleError_told].
    eapply told_trans; [exact H2 | by apply log_told].
  - eapply told_trans; [| apply updateStatus_told].
    eapply told_trans; [| apply handleError_told].
    apply Hcreated.
Qed.

Lemma disconnect_told (preventReconnect : bool) (w : World) :
  told w (disconnect preventReconnect w).
Proof.
  unfold disconnect.
  set (w1 := if preventReconnect then set_explicitDisconnect true w else w).
  assert (H1 : told w w1).
  { unfold w1. destruct preventReconnect; [by apply told_quiet | apply told_refl]. }
  destruct (socket w1) as [sk |].
  - destruct (connected sk || connecting sk).
    + eapply told_trans; [| apply lib_socket_disconnect_told].
      eapply told_trans; [exact H1 | apply updateStatus_told].
    + destruct preventReconnect; [| done].
      eapply told_trans; [exact H1 | by apply told_quiet].
  - assert (H2 : told w (updateStatus CLOSED w1))
      by (eapply told_trans; [exact H1 | apply updateStatus_told]).
    destruct preventReconnect; [| done].
    eapply told_trans; [exact H2 | by apply told_quiet].
Qed.

(** Actions that replace or drop the status callback. *)
Definition touches_status_callback (a : Action) : Prop :=
  match a with
  | SetOnStatusChange _ | Cleanup => True
  | _ => False
  end.

(** Whatever happens to the service, as long as the status callback is
    neither replaced nor dropped, it is called with each new value of the
    status, once, in the order the values are taken, and at no other time. *)
Lemma step_told (a : Action) (w w' : World) :
  ¬ touches_status_callback a → step a w = Some w' → told w w'.
Proof.
  intros Ha. destruct a; simpl in *;
    try (intros [= <-]; by apply told_quiet); try done.
  - intros [= <-]. apply connect_sync_told.
  - intros [= <-]. apply connect_resume_told.
  - intros [= <-]. apply sendMessage_told.
  - intros [= <-]. apply disconnect_told.
  - intros [= <-]. unfold appStateChanged, handleAppStateChange.
    repeat case_match; try apply told_refl. apply connect_sync_told.
  - apply deliver_told.
  - intros [= <-]. unfold lib_setConnecting.
    destruct (socket w); [by apply told_quiet | apply told_refl].
Qed.

Lemma run_told (acts : list Action) :
  ∀ w w', Forall (λ a, ¬ touches_status_callback a) acts →
          run acts w = Some w' → told w w'.
Proof.
  induction acts as [| a acts IH]; intros w w' Hacts; simpl.
  - intros [= <-]. apply told_refl.
  - apply Forall_cons in Hacts as [Ha Hacts].
    destruct (step a w) as [w1 |] eqn:Hstep; simpl; [| done].
    intros Hrun. eapply told_trans; [by apply (step_told a) | by apply IH].
Qed.

(** C2. [setOnStatusChange] stores the callback and calls it once, at once,
    with the status held at that time. Afterwards [updateStatus] with a
    status other than the one held stores it and calls the callback once
    with it; with the status already held it returns the state it was given:
    no call, no change. Over any run of actions that neither replaces nor
    drops the callback, the calls made on it are exactly the successive
    changes of the status, once each and in order. *)
Theorem status_callback_protocol
    (callback : Callback) (newStatus : WebSocketStatus) (w : World) :
  (onStatusChangeCallback (snd (setOnStatusChange callback w)) = Some callback ∧
   status (snd (setOnStatusChange callback w)) = status w ∧
   trace (snd (setOnStatusChange callback w))
     = trace w ++ [StatusChangeCalled (cb_id callback) (status w)]) ∧
  (onStatusChangeCallback w = Some callback → status w ≠ newStatus →
   status (updateStatus newStatus w) = newStatus ∧
   trace (updateStatus newStatus w)
     = trace w ++ [StatusChangeCalled (cb_id callback) newStatus] ∧
   updateStatus newStatus w
     = log (StatusChangeCalled (cb_id callback) newStatus) (set_status newStatus w)) ∧
  (status w = newStatus → updateStatus newStatus w = w) ∧
  (∀ acts w',
     onStatusChangeCallback w = Some callback →
     Forall (λ a, ¬ touches_status_callback a) acts →
     run acts w = Some w' →
     onStatusChangeCallback w' = Some callback ∧
     ∃ l, notified w' = notified w ++ l ∧ changes (status w) l (status w')).
Proof.
  split; [| split; [| split]].
  - repeat split.
  - intros Hcb Hne. unfold updateStatus.
    rewrite bool_decide_eq_true_2 by done.
    simpl. rewrite Hcb. repeat split.
  - intros Heq. unfold updateStatus.
    by rewrite bool_decide_eq_false_2 by (intros H; by apply H).
  - intros acts w' Hcb Hacts Hrun.
    destruct (run_told acts w w' Hacts Hrun) as [Hcb' Htold].
    rewrite Hcb in Hcb', Htold. done.
Qed.

(** *** The connection URL of a service that has a socket *)

(** A socket is only ever created by a [connect] that got past the URL
    check, and the URL is never cleared afterwards. *)
Definition url_known (w : World) : Prop :=
  is_Some (socket w) ∨ pendingConnects w ≠ [] →
  truthy_str (connectionUrl w) = true.

Lemma url_known_shape (w w' : World) :
  (is_Some (socket w') → is_Some (socket w)) →
  pendingConnects w' = pendingConnects w →
  connectionUrl w' = connectionUrl w →
  url_known w → url_known w'.
Proof.
  unfold url_known. intros Hs -> -> Hk [H | H]; apply Hk; [left; by apply Hs | by right].
Qed.

Lemma updateStatus_url_known (st : WebSocketStatus) (w : World) :
  url_known w → url_known (updateStatus st w).
Proof.
  destruct (updateStatus_frame st w) as (Hs & Hu & _ & _ & _ & Hp & _).
  apply url_known_shape; [by rewrite Hs | done | done].
Qed.

Lemma handleError_url_known (message : string) (w : World) :
  url_known w → url_known (handleError message w).
Proof.
  destruct (handleError_frame message w) as (Hs & Hu & _ & _ & _ & Hp & _).
  apply url_known_shape; [by rewrite Hs | done | done].
Qed.

Lemma log_url_known (e : Effect) (w : World) : url_known w → url_known (log e w).
Proof. by apply url_known_shape. Qed.

Lemma lib_fire_disconnect_url_known (reason : string) (w : World) :
  url_known w → url_known (lib_fire_disconnect reason w).
Proof.
  destruct (lib_fire_disconnect_frame reason w) as (_ & Hs & Hu & _ & _ & _ & Hp & _).
  apply url_known_shape; [apply Hs | done | done].
Qed.

Lemma lib_socket_disconnect_url_known (w : World) :
  url_known w → url_known (lib_socket_disconnect w).
Proof.
  destruct (lib_socket_disconnect_frame w) as (_ & Hs & Hu & _ & _ & _ & Hp & _).
  apply url_known_shape; [apply Hs | done | done].
Qed.

Lemma sendMessage_url_known (eventName : string) (args : list string) (w : World) :
  url_known w → url_known (snd (sendMessage eventName args w)).
Proof.
  destruct (sendMessage_frame eventName args w) as (_ & Hs & Hu & Hp & _).
  apply url_known_shape; [apply Hs | done | done].
Qed.

Lemma connect_sync_url_known (url : option string) (w : World) :
  url_known w → url_known (connect_sync url w).
Proof.
  intros Hk. unfold connect_sync.
  set (w1 := if truthy_str url then set_connectionUrl url w else w).
  destruct (truthy_str (connectionUrl w1)) eqn:Hu1; simpl.
  - assert (Hall : ∀ w2, connectionUrl w2 = connectionUrl w1 →
              url_known
                (set_pendingConnects
                   (pendingConnects (updateStatus CONNECTING (set_explicitDisconnect false w2))
                    ++ [getAuthData (updateStatus CONNECTING (set_explicitDisconnect false w2))])
                   (updateStatus CONNECTING (set_explicitDisconnect false w2)))).
    { intros w2 Hu2 _. simpl.
      destruct (updateStatus_frame CONNECTING (set_explicitDisconnect false w2))
        as (_ & -> & _). simpl. by rewrite Hu2. }
    assert (Hk1 : url_known w1) by (intros _; exact Hu1).
    destruct (socket w1) as [sk |] eqn:Hsk; [| by apply Hall].
    destruct (connected sk); [done |]. destruct (connecting sk); [done |].
    apply Hall. simpl.
    by destruct (lib_socket_disconnect_frame w1) as (_ & _ & -> & _).
  - apply handleError_url_known. intros Hor.
    assert (Hw : w1 = w).
    { unfold w1 in *. destruct (truthy_str url) eqn:Hurl; [| done].
      simpl in Hu1. congruence. }
    rewrite Hw in Hor |- *. by apply Hk.
Qed.

Lemma connect_resume_url_known (io : IoOutcome) (w : World) :
  url_known w → url_known (connect_resume io w).
Proof.
  intros Hk. unfold connect_resume.
  destruct (pendingConnects w) as [| auth rest] eqn:Hp; [done |].
  assert (Hu : truthy_str (connectionUrl w) = true).
  { apply Hk. right. by rewrite Hp. }
  set (w1 := set_pendingConnects rest w).
  set (w2 := match auth with
             | AuthData _ => w1
             | AuthFailed => handleError "Failed to get auth token" w1
             end).
  assert (Hu2 : connectionUrl w2 = connectionUrl w).
  { unfold w2. destruct auth; [done |].
    by destruct (handleError_frame "Failed to get auth token" w1) as (_ & -> & _). }
  assert (Hall : ∀ w3, connectionUrl w3 = connectionUrl w → url_known w3).
  { intros w3 Hu3 _. by rewrite Hu3. }
  apply Hall.
  destruct io as [c | message | c message]; simpl.
  - exact Hu2.
  - match goal with
    | |- connectionUrl (updateStatus CLOSED (handleError message ?w0)) = _ =>
        destruct (updateStatus_frame CLOSED (handleError message w0))
          as (_ & -> & _);
        destruct (handleError_frame message w0) as (_ & -> & _)
    end. exact Hu2.
  - match goal with
    | |- connectionUrl (updateStatus CLOSED (handleError message ?w0)) = _ =>
        destruct (updateStatus_frame CLOSED (handleError message w0))
          as (_ & -> & _);
        destruct (handleError_frame message w0) as (_ & -> & _)
    end. exact Hu2.
Qed.

Lemma disconnect_url_known (preventReconnect : bool) (w : World) :
  url_known w → url_known (disconnect preventReconnect w).
Proof.
  intros Hk. unfold disconnect.
  set (w1 := if preventReconnect then set_explicitDisconnect true w else w).
  assert (Hk1 : url_known w1) by (unfold w1; by destruct preventReconnect).
  destruct (socket w1) as [sk |].
  - destruct (connected sk || connecting sk).
    + by apply lib_socket_disconnect_url_known, updateStatus_url_known.
    + by destruct preventReconnect.
  - pose proof (updateStatus_url_known CLOSED w1 Hk1). by destruct preventReconnect.
Qed.

Lemma cleanup_url_known (w : World) : url_known w → url_known (cleanup w).
Proof.
  intros Hk. unfold cleanup.
  set (w1 := disconnect true (set_appStateListener false w)).
  assert (Hk1 : url_known w1) by (by apply disconnect_url_known).
  set (w2 := match socket w1 with
             | Some _ => log SocketRemoveAllListeners w1
             | None => w1
             end).
  assert (Hk2 : url_known w2) by (unfold w2; by destruct (socket w1)).
  revert Hk2. apply url_known_shape; simpl; [| done | done].
  intros [? [=]].
Qed.

Lemma deliver_url_known (e : SocketEvent) (w w' : World) :
  url_known w → deliver e w = Some w' → url_known w'.
Proof.
  intros Hk. unfold deliver.
  destruct (socket w) as [sk |] eqn:Hsk; [| by intros [= <-]].
  destruct e; try (intros [= <-]).
  - unfold on_connect.
    set (w0 := updateStatus OPEN _).
    assert (Hk0 : url_known w0).
    { apply updateStatus_url_known. revert Hk.
      apply url_known_shape; simpl; [| done | done]. by rewrite Hsk. }
    unfold processMessageQueue.
    destruct (queueMessages (options w0) && socket_connected w0).
    + destruct (drain _ w0) as [w1 |] eqn:Hd; simpl; [| done].
      intros [= <-].
      assert (Hk1 : url_known w1).
      { revert Hd. apply (drain_preserves url_known); [done | | done].
        intros. by apply sendMessage_url_known. }
      by destruct (onOpenCallback w1).
    + simpl. intros [= <-]. by destruct (onOpenCallback w0).
  - by apply lib_fire_disconnect_url_known.
  - by apply handleError_url_known, updateStatus_url_known.
  - by apply updateStatus_url_known.
  - by apply handleError_url_known, updateStatus_url_known.
  - by apply handleError_url_known, updateStatus_url_known.
  - by apply handleError_url_known.
  - unfold on_message, on_any. ws_cases.
  - unfold on_any. ws_cases.
Qed.

Lemma step_url_known (a : Action) (w w' : World) :
  url_known w → step a w = Some w' → url_known w'.
Proof.
  intros Hk. destruct a; simpl; try (by intros [= <-]).
  - intros [= <-]. by apply connect_sync_url_known.
  - intros [= <-]. by apply connect_resume_url_known.
  - intros [= <-]. by apply sendMessage_url_known.
  - intros [= <-]. by apply disconnect_url_known.
  - intros [= <-]. by apply cleanup_url_known.
  - intros [= <-]. unfold appStateChanged, handleAppStateChange.
    destruct (appStateListener w); [| done].
    destruct (socket w); [| done]. destruct nextAppState; try done.
    destruct (_ && _); [| done]. by apply connect_sync_url_known.
  - by apply deliver_url_known.
  - intros [= <-]. unfold lib_setConnecting.
    destruct (socket w) eqn:Hsk; [| done].
    revert Hk. apply url_known_shape; simpl; [| done | done]. by rewrite Hsk.
Qed.

Lemma new_url_known (url : option string) (o : WebSocketServiceOptions) :
  url_known (new url o).
Proof.
  unfold new.
  set (w0 := mkWorld _ _ _ _ _ _ _ _ _ _ _ _ _ _ _).
  assert (Hk0 : url_known w0) by (intros [[? [=]] | H]; done).
  apply (url_known_shape (if truthy_str url
     then if autoConnect (options (set_connectionUrl url w0))
          then connect_sync url (set_connectionUrl url w0)
          else set_connectionUrl url w0
     else w0) _); [done | done | done |].
  destruct (truthy_str url) eqn:Hurl; [| done].
  assert (Hk1 : url_known (set_connectionUrl url w0)) by (intros _; exact Hurl).
  destruct (autoConnect _); [| done]. by apply connect_sync_url_known.
Qed.

Lemma reachable_url_known (w : World) : reachable w → url_known w.
Proof.
  induction 1 as [url o | a w w' _ IH Hstep]; [apply new_url_known |].
  by apply (step_url_known a w).
Qed.

(** C6. On a service whose socket is connected, [connect(url)] returns at
    the "Already connected" check: nothing is called on the socket library or
    on a callback, no [connect] is left pending, the socket and the status
    are the ones held before, and only [connectionUrl] takes the new url when
    one is given. Calling it again changes nothing more. *)
Theorem connect_when_connected (url : option string) (w : World) (sk : Socket) :
  reachable w → socket w = Some sk → connected sk = true →
  connect_sync url w = (if truthy_str url then set_connectionUrl url w else w) ∧
  socket (connect_sync url w) = Some sk ∧
  status (connect_sync url w) = status w ∧
  trace (connect_sync url w) = trace w ∧
  pendingConnects (connect_sync url w) = pendingConnects w ∧
  connect_sync url (connect_sync url w) = connect_sync url w.
Proof.
  intros Hreach Hsk Hconn.
  assert (Hu : truthy_str (connectionUrl w) = true).
  { apply (reachable_url_known w Hreach). left. by rewrite Hsk. }
  assert (Heq : ∀ w0, socket w0 = Some sk → truthy_str (connectionUrl w0) = true →
            connect_sync url w0 = if truthy_str url then set_connectionUrl url w0 else w0).
  { intros w0 Hsk0 Hu0. unfold connect_sync.
    destruct (truthy_str url) eqn:Hurl; simpl.
    - by rewrite Hurl, Hsk0, Hconn.
    - by rewrite Hu0, Hsk0, Hconn. }
  rewrite (Heq w Hsk Hu).
  destruct (truthy_str url) eqn:Hurl.
  - repeat split; try done. by rewrite Heq.
  - repeat split; try done. by rewrite Heq.
Qed.


(** *** Relations that every building block respects *)

(** The calls on the socket library other than [emit]. *)
Definition quiet_effect (e : Effect) : Prop :=
  match e with
  | IoCreated _ _ | SocketConnect | SocketDisconnect | SocketRemoveAllListeners => True
  | _ => False
  end.

Section Frames.

(** A relation between the state before and the state after, which holds
    across the steps the methods and handlers are made of. *)
Variable R : World → World → Prop.
Hypothesis R_refl : ∀ w, R w w.
Hypothesis R_trans : ∀ w1 w2 w3, R w1 w2 → R w2 w3 → R w1 w3.
Hypothesis R_updateStatus : ∀ st w, R w (updateStatus st w).
Hypothesis R_handleError : ∀ message w, R w (handleError message w).
Hypothesis R_log : ∀ e w, quiet_effect e → R w (log e w).
Hypothesis R_close : ∀ w cb reason,
  onCloseCallback w = Some cb → R w (log (CloseCalled (cb_id cb) reason) w).
Hypothesis R_message : ∀ w cb ev args,
  onMessageCallback w = Some cb → R w (log (MessageCalled (cb_id cb) ev args) w).
Hypothesis R_set_socket : ∀ x w, R w (set_socket x w).
Hypothesis R_set_connectionUrl : ∀ x w, R w (set_connectionUrl x w).
Hypothesis R_set_explicitDisconnect : ∀ x w, R w (set_explicitDisconnect x w).
Hypothesis R_set_pendingConnects : ∀ x w, R w (set_pendingConnects x w).

Ltac frame_step :=
  lazymatch goal with
  | |- R ?w ?w => apply R_refl
  | |- R ?w (updateStatus ?st ?w1) => apply (R_trans w w1); [| apply R_updateStatus]
  | |- R ?w (handleError ?m ?w1) => apply (R_trans w w1); [| apply R_handleError]
  | |- R ?w (log (CloseCalled _ _) ?w1) => apply (R_trans w w1); [| by apply R_close]
  | |- R ?w (log (MessageCalled _ _ _) ?w1) =>
      apply (R_trans w w1); [| by apply R_message]
  | |- R ?w (log ?e ?w1) => apply (R_trans w w1); [| apply R_log; exact I]
  | |- R ?w (set_socket ?x ?w1) => apply (R_trans w w1); [| apply R_set_socket]
  | |- R ?w (set_connectionUrl ?x ?w1) =>
      apply (R_trans w w1); [| apply R_set_connectionUrl]
  | |- R ?w (set_explicitDisconnect ?x ?w1) =>
      apply (R_trans w w1); [| apply R_set_explicitDisconnect]
  | |- R ?w (set_pendingConnects ?x ?w1) =>
      apply (R_trans w w1); [| apply R_set_pendingConnects]
  end.

Lemma frame_on_disconnect (reason : string) (w : World) : R w (on_disconnect reason w).
Proof.
  unfold on_disconnect.
  destruct (onCloseCallback _) as [cb |] eqn:Hcb;
    repeat case_match; repeat frame_step.
Qed.

Lemma frame_lib_fire_disconnect (reason : string) (w : World) :
  R w (lib_fire_disconnect reason w).
Proof.
  unfold lib_fire_disconnect. destruct (socket w) as [sk |]; [| apply R_refl].
  eapply R_trans; [| apply frame_on_disconnect]. apply R_set_socket.
Qed.

Lemma frame_lib_socket_disconnect (w : World) : R w (lib_socket_disconnect w).
Proof.
  unfold lib_socket_disconnect. destruct (socket w) as [sk |]; [| apply R_refl].
  destruct (connected sk).
  - eapply R_trans; [| apply frame_lib_fire_disconnect]. by apply R_log.
  - repeat frame_step.
Qed.

Lemma frame_connect_sync (url : option string) (w : World) : R w (connect_sync url w).
Proof.
  unfold connect_sync.
  assert (H1 : R w (if truthy_str url then set_connectionUrl url w else w))
    by (destruct (truthy_str url); repeat frame_step).
  set (w1 := if truthy_str url then set_connectionUrl url w else w) in *.
  clearbody w1. apply (R_trans w w1); [exact H1 |]. clear H1.
  destruct (negb (truthy_str (connectionUrl w1))); [repeat frame_step |].
  destruct (socket w1) as [sk |].
  - destruct (connected sk); [apply R_refl |].
    destruct (connecting sk); [apply R_refl |].
    do 4 frame_step. apply frame_lib_socket_disconnect.
  - repeat frame_step.
Qed.

Lemma frame_connect_resume (io : IoOutcome) (w : World) : R w (connect_resume io w).
Proof.
  unfold connect_resume. destruct (pendingConnects w) as [| auth rest]; [apply R_refl |].
  assert (H2 : R w match auth with
                   | AuthData _ => set_pendingConnects rest w
                   | AuthFailed =>
                       handleError "Failed to get auth token" (set_pendingConnects rest w)
                   end)
    by (destruct auth; repeat frame_step).
  set (w2 := match auth with
             | AuthData _ => set_pendingConnects rest w
             | AuthFailed => _
             end) in *.
  clearbody w2. apply (R_trans w w2); [exact H2 |]. clear H2.
  destruct io; repeat frame_step.
Qed.

Lemma frame_disconnect (preventReconnect : bool) (w : World) :
  R w (disconnect preventReconnect w).
Proof.
  unfold disconnect.
  assert (H1 : R w (if preventReconnect then set_explicitDisconnect true w else w))
    by (destruct preventReconnect; repeat frame_step).
  set (w1 := if preventReconnect then set_explicitDisconnect true w else w) in *.
  clearbody w1. apply (R_trans w w1); [exact H1 |]. clear H1.
  destruct (socket w1) as [sk |].
  - destruct (connected sk || connecting sk).
    + eapply R_trans; [| apply frame_lib_socket_disconnect]. repeat frame_step.
    + destruct preventReconnect; repeat frame_step.
  - destruct preventReconnect; repeat frame_step.
Qed.

Lemma frame_handleAppStateChange (nextAppState : AppStateStatus) (w : World) :
  R w (handleAppStateChange nextAppState w).
Proof.
  unfold handleAppStateChange. destruct (socket w) as [sk |]; [| apply R_refl].
  destruct nextAppState; try apply R_refl.
  destruct (_ && _); [apply frame_connect_sync | apply R_refl].
Qed.

Lemma frame_appStateChanged (nextAppState : AppStateStatus) (w : World) :
  R w (appStateChanged nextAppState w).
Proof.
  unfold appStateChanged.
  destruct (appStateListener w); [apply frame_handleAppStateChange | apply R_refl].
Qed.

Lemma frame_lib_setConnecting (b : bool) (w : World) : R w (lib_setConnecting b w).
Proof. unfold lib_setConnecting. destruct (socket w); repeat frame_step. Qed.

Lemma frame_on_any (ev : string) (args : list string) (w : World) :
  R w (on_any ev args w).
Proof.
  unfold on_any. destruct (bool_decide _); [apply R_refl |].
  destruct (onMessageCallback w) as [cb |] eqn:Hcb; repeat frame_step.
Qed.

Lemma frame_on_message (args : list string) (w : World) : R w (on_message args w).
Proof.
  unfold on_message.
  destruct (onMessageCallback w) as [cb |] eqn:Hcb; repeat frame_step.
Qed.

(** Every event of the socket but 'connect'. *)
Lemma frame_deliver (e : SocketEvent) (w w' : World) :
  e ≠ EvConnect → deliver e w = Some w' → R w w'.
Proof.
  intros He. unfold deliver. destruct (socket w) as [sk |]; [| by intros [= <-]].
  destruct e; try done; intros [= <-].
  - apply frame_lib_fire_disconnect.
  - unfold on_connect_error. repeat frame_step.
  - unfold on_reconnect_attempt. repeat frame_step.
  - unfold on_reconnect_failed. repeat frame_step.
  - unfold on_reconnect_error. repeat frame_step.
  - unfold on_error. repeat frame_step.
  - eapply R_trans; [| apply frame_on_message].
    destruct (anyListener sk); [apply frame_on_any | apply R_refl].
  - destruct (anyListener sk); [apply frame_on_any | apply R_refl].
Qed.

End Frames.

(** *** No event is lost *)

(** [m] was handed to [socket.emit], or it waits in the queue. *)
Definition kept (m : Message) (w : World) : Prop :=
  m ∈ emitted w ∨ m ∈ messageQueue w.

(** The options are the same, and what was kept is kept. *)
Definition carries (w w' : World) : Prop :=
  options w' = options w ∧ ∀ m, kept m w → kept m w'.

Lemma carries_refl (w : World) : carries w w.
Proof. by split. Qed.

Lemma carries_trans (w1 w2 w3 : World) :
  carries w1 w2 → carries w2 w3 → carries w1 w3.
Proof. intros [Ho1 Hk1] [Ho2 Hk2]. split; [congruence | auto]. Qed.

Lemma same_mail_carries (w w' : World) :
  options w' = options w → emitted w' = emitted w →
  messageQueue w' = messageQueue w → carries w w'.
Proof. intros Ho He Hq. split; [done |]. intros m. unfold kept. by rewrite He, Hq. Qed.

Lemma carries_updateStatus (st : WebSocketStatus) (w : World) :
  carries w (updateStatus st w).
Proof.
  destruct (updateStatus_frame st w) as (_ & _ & Ho & _ & Hq & _ & He).
  by apply same_mail_carries.
Qed.

Lemma carries_handleError (message : string) (w : World) :
  carries w (handleError message w).
Proof.
  destruct (handleError_frame message w) as (_ & _ & Ho & _ & Hq & _ & He).
  by apply same_mail_carries.
Qed.

Lemma carries_log (e : Effect) (w : World) :
  (∀ m, e ≠ SocketEmit m) → carries w (log e w).
Proof.
  intros He. apply same_mail_carries; [done | by apply emitted_log_other | done].
Qed.

Lemma carries_log_emit (m : Message) (w : World) : carries w (log (SocketEmit m) w).
Proof.
  split; [done |]. intros m0 [Hin | Hin]; [left | by right].
  rewrite emitted_log_emit. apply elem_of_app. by left.
Qed.

Lemma carries_log_quiet (e : Effect) (w : World) :
  quiet_effect e → carries w (log e w).
Proof. intros He. apply carries_log. intros m ->. exact He. Qed.

Ltac carries_base :=
  first
    [ exact carries_refl
    | exact carries_trans
    | exact carries_updateStatus
    | exact carries_handleError
    | exact carries_log_quiet
    | (intros; by apply carries_log)
    | (intros; by apply same_mail_carries) ].

Lemma sendMessage_carries (eventName : string) (args : list string) (w : World) :
  carries w (snd (sendMessage eventName args w)) ∧
  (socket_connected w = true →
   mkMessage eventName args ∈ emitted (snd (sendMessage eventName args w)) ∧
   messageQueue (snd (sendMessage eventName args w)) = messageQueue w) ∧
  (socket_connected w = false →
   fst (sendMessage eventName args w) = false ∧
   socket_connected (snd (sendMessage eventName args w)) = false ∧
   (queueMessages (options w) = true →
    mkMessage eventName args ∈ messageQueue (snd (sendMessage eventName args w))) ∧
   ∀ m, m ∈ messageQueue w → m ∈ messageQueue (snd (sendMessage eventName args w))).
Proof.
  destruct (socket_connected w) eqn:Hconn.
  - destruct (sendMessage_connected eventName args w Hconn)
      as (_ & _ & He & Hq & Ho & _).
    split; [| split; [| done]].
    + split; [done |]. intros m [Hin | Hin]; [left | right].
      * rewrite He. apply elem_of_app. by left.
      * by rewrite Hq.
    + intros _. split; [| done]. rewrite He. apply elem_of_app. right.
      apply list_elem_of_singleton. reflexivity.
  - destruct (sendMessage_not_connected eventName args w Hconn) as [Hsent Hc2].
    split; [| split; [done |]].
    + unfold sendMessage. rewrite Hconn.
      destruct (queueMessages (options w)); simpl; [| apply carries_handleError].
      split; [done |]. intros m [Hin | Hin]; [by left | right].
      simpl. apply elem_of_app. by left.
    + intros _. split; [done |]. split; [done |].
      unfold sendMessage. rewrite Hconn.
      destruct (queueMessages (options w)); simpl.
      * split; [| intros m Hin; apply elem_of_app; by left].
        intros _. apply elem_of_app. right. apply list_elem_of_singleton. reflexivity.
      * split; [done |]. intros m.
        by destruct (handleError_frame
          ("Cannot emit event '" +:+ eventName +:+ "', socket state is " +:+
           status_name (status w)) w) as (_ & _ & _ & _ & -> & _).
Qed.

(** The loop of [processMessageQueue] takes an event off the queue only to
    hand it to [socket.emit] or to put it back. *)
Lemma drain_carries :
  ∀ (fuel : nat) (w w' : World), drain fuel w = Some w' → carries w w'.
Proof.
  induction fuel as [| fuel IH]; intros w w'; simpl; [done |].
  destruct (messageQueue w) as [| item rest] eqn:Hq; [intros [= <-]; apply carries_refl |].
  set (w1 := set_messageQueue rest w).
  destruct (sendMessage_carries (event item) (data item) w1)
    as ([Ho Hk] & Hconn & Hnot).
  rewrite message_eta in Hconn, Hnot.
  destruct (sendMessage (event item) (data item) w1) as [sent w2] eqn:Hsend.
  simpl in Ho, Hk, Hconn, Hnot.
  assert (Hrest : ∀ m, m ∈ rest → kept m w2).
  { intros m Hin. apply Hk. by right. }
  assert (Hem : ∀ m, m ∈ emitted w → kept m w2).
  { intros m Hin. apply Hk. by left. }
  destruct (negb sent && negb (socket_connected w2)) eqn:Hbreak.
  - intros [= <-]. split; [done |]. intros m [Hin | Hin].
    + destruct (Hem m Hin) as [? | ?]; [by left | right].
      simpl. by apply elem_of_cons; right.
    + rewrite Hq in Hin. apply elem_of_cons in Hin as [-> | Hin].
      * right. simpl. apply list_elem_of_here.
      * destruct (Hrest m Hin) as [? | ?]; [by left | right].
        simpl. by apply elem_of_cons; right.
  - intros Hd. apply (carries_trans w w2); [| by apply IH].
    split; [done |]. intros m [Hin | Hin]; [by apply Hem |].
    rewrite Hq in Hin. apply elem_of_cons in Hin as [-> | Hin]; [| by apply Hrest].
    destruct (socket_connected w1) eqn:Hc1.
    + left. by apply Hconn.
    + destruct (Hnot eq_refl) as (-> & Hc2 & _). by rewrite Hc2 in Hbreak.
Qed.

Lemma deliver_carries (e : SocketEvent) (w w' : World) :
  deliver e w = Some w' → carries w w'.
Proof.
  destruct e;
    [| apply (frame_deliver carries); try carries_base; done ..].
  - unfold deliver. destruct (socket w) as [sk |]; [| intros [= <-]; apply carries_refl].
    unfold on_connect.
    set (w0 := updateStatus OPEN _).
    assert (H0 : carries w w0).
    { unfold w0. eapply carries_trans; [| apply carries_updateStatus].
      by apply same_mail_carries. }
    unfold processMessageQueue.
    destruct (queueMessages (options w0) && socket_connected w0).
    + destruct (drain _ w0) as [w1 |] eqn:Hd; simpl; [| done].
      intros [= <-]. apply (carries_trans w w0); [done |].
      apply (carries_trans w0 w1); [by apply (drain_carries _ _ _ Hd) |].
      destruct (onOpenCallback w1); [by apply carries_log | apply carries_refl].
    + simpl. intros [= <-]. apply (carries_trans w w0); [done |].
      destruct (onOpenCallback w0); [by apply carries_log | apply carries_refl].
Qed.

Lemma step_carries (a : Action) (w w' : World) :
  a ≠ Cleanup → step a w = Some w' → carries w w'.
Proof.
  intros Ha. destruct a; simpl; try (intros [= <-]);
    try (by apply same_mail_carries).
  - eapply carries_trans; [| by apply carries_log]. by apply same_mail_carries.
  - apply (frame_connect_sync carries); carries_base.
  - apply (frame_connect_resume carries); carries_base.
  - apply sendMessage_carries.
  - apply (frame_disconnect carries); carries_base.
  - apply (frame_appStateChanged carries); carries_base.
  - apply deliver_carries.
  - apply (frame_lib_setConnecting carries); carries_base.
Qed.

Lemma run_carries (acts : list Action) :
  ∀ w w', Cleanup ∉ acts → run acts w = Some w' → carries w w'.
Proof.
  induction acts as [| a acts IH]; intros w w' Hno; simpl.
  - intros [= <-]. apply carries_refl.
  - apply not_elem_of_cons in Hno as [Hne Hno].
    destruct (step a w) as [w1 |] eqn:Hstep; simpl; [| done].
    intros Hrun. apply (carries_trans w w1).
    + apply (step_carries a); [congruence | done].
    + by apply IH.
Qed.

(** X17. With [queueMessages] on and as long as [cleanup] is not called, no
    event given to [sendMessage] is lost: in every later state it has been
    handed to [socket.emit] or it is in the queue, whatever the library, the
    app state and the other calls did in between. *)
Theorem no_event_lost (acts : list Action) (w w' : World)
    (eventName : string) (args : list string) :
  queueMessages (options w) = true → Cleanup ∉ acts →
  run acts w = Some w' → SendMessage eventName args ∈ acts →
  mkMessage eventName args ∈ emitted w' ∨
  mkMessage eventName args ∈ messageQueue w'.
Proof.
  revert w. induction acts as [| a acts IH]; intros w Hqm Hno; simpl.
  - by intros _ ?%elem_of_nil.
  - apply not_elem_of_cons in Hno as [Hne Hno].
    destruct (step a w) as [w1 |] eqn:Hstep; simpl; [| done].
    assert (Hc1 : carries w w1) by (apply (step_carries a); [congruence | done]).
    intros Hrun [Heq | Hin]%elem_of_cons.
    + subst a. destruct (run_carries acts w1 w' Hno Hrun) as [_ Hk]. apply Hk.
      simpl in Hstep. injection Hstep as <-.
      destruct (sendMessage_carries eventName args w) as (_ & Hconn & Hnot).
      destruct (socket_connected w) eqn:Hc; [left; by apply Hconn |].
      right. destruct (Hnot eq_refl) as (_ & _ & Hq & _). by apply Hq.
    + apply (IH w1); try done. destruct Hc1 as [-> _]. done.
Qed.

(** *** [disconnect] *)

Lemma updateStatus_status (st : WebSocketStatus) (w : World) :
  status (updateStatus st w) = st.
Proof.
  unfold updateStatus. case_bool_decide as Hne.
  - by destruct (onStatusChangeCallback _).
  - by destruct (decide (status w = st)).
Qed.

Lemma on_disconnect_exact (reason : string) (w : World) :
  status (on_disconnect reason w) = CLOSED ∧
  explicitDisconnect (on_disconnect reason w)
  = explicitDisconnect w || String.eqb reason "io client disconnect".
Proof.
  pose proof (updateStatus_status CLOSED w) as Hst.
  destruct (updateStatus_frame CLOSED w) as (_ & _ & _ & He & _).
  unfold on_disconnect.
  set (w1 := updateStatus CLOSED w) in *.
  destruct (String.eqb reason "io client disconnect"); simpl.
  - destruct (onCloseCallback _); simpl; by rewrite Hst, orb_true_r.
  - destruct (reconnection (options w1));
      destruct (onCloseCallback _); simpl; by rewrite Hst, He, orb_false_r.
Qed.

Lemma lib_socket_disconnect_exact (w : World) (sk : Socket) :
  socket w = Some sk →
  status (lib_socket_disconnect w) = (if connected sk then CLOSED else status w) ∧
  explicitDisconnect (lib_socket_disconnect w) = explicitDisconnect w || connected sk.
Proof.
  intros Hsk. unfold lib_socket_disconnect. rewrite Hsk.
  destruct (connected sk).
  - unfold lib_fire_disconnect. simpl. rewrite Hsk.
    destruct (on_disconnect_exact "io client disconnect"
                (set_socket (Some (mkSocket false false (anyListener sk)))
                   (log SocketDisconnect w))) as [-> ->].
    simpl. by rewrite !orb_true_r.
  - simpl. by rewrite orb_false_r.
Qed.

(** X18. [disconnect(preventReconnect)] leaves no connected socket, the
    queue and the suspended [connect] calls as they were, and:
    [explicitDisconnect] is set when [preventReconnect] is true, and also
    when the socket was connected, whatever [preventReconnect] says (the
    'disconnect' handler sees the reason 'io client disconnect'); the status
    is CLOSED if there was no socket or a connected one, stays CLOSING if
    the socket was only connecting, and is unchanged otherwise. *)
Theorem disconnect_outcomes (preventReconnect : bool) (w : World) :
  let w' := disconnect preventReconnect w in
  socket_connected w' = false ∧
  explicitDisconnect w'
  = preventReconnect || explicitDisconnect w || socket_connected w ∧
  status w' = match socket w with
              | None => CLOSED
              | Some sk => if connected sk then CLOSED
                           else if connecting sk then CLOSING
                           else status w
              end ∧
  (is_Some (socket w') ↔ is_Some (socket w)) ∧
  messageQueue w' = messageQueue w ∧
  pendingConnects w' = pendingConnects w ∧
  emitted w' = emitted w.
Proof.
  intros w'. subst w'. unfold disconnect.
  set (w1 := if preventReconnect then set_explicitDisconnect true w else w).
  assert (H1 : socket w1 = socket w ∧ status w1 = status w ∧
               explicitDisconnect w1 = preventReconnect || explicitDisconnect w ∧
               messageQueue w1 = messageQueue w ∧
               pendingConnects w1 = pendingConnects w ∧ emitted w1 = emitted w)
    by (unfold w1; by destruct preventReconnect).
  destruct H1 as (Hs1 & Hst1 & He1 & Hq1 & Hp1 & Hm1).
  clearbody w1. unfold socket_connected. rewrite <- Hs1, <- Hst1, <- Hq1, <- Hp1, <- Hm1.
  destruct (socket w1) as [sk |] eqn:Hsk.
  - destruct (connected sk || connecting sk) eqn:Hany.
    + set (w2 := updateStatus CLOSING w1).
      destruct (updateStatus_frame CLOSING w1) as (Hs2 & _ & _ & He2 & Hq2 & Hp2 & Hm2).
      pose proof (updateStatus_status CLOSING w1) as Hst2.
      fold w2 in Hs2, He2, Hq2, Hp2, Hm2, Hst2. rewrite Hsk in Hs2.
      destruct (lib_socket_disconnect_frame w2)
        as (Hc & Hsome & _ & _ & _ & Hq & Hp & Hm).
      destruct (lib_socket_disconnect_exact w2 sk Hs2) as [Hst He].
      unfold socket_connected in Hc. rewrite Hc, Hst, He, Hq, Hp, Hm.
      rewrite Hst2, He2, He1, Hq2, Hp2, Hm2, Hsome, Hs2.
      split; [done |]. split; [done |]. split; [| done].
      destruct (connected sk); [done |]. simpl in Hany. by rewrite Hany.
    + apply orb_false_elim in Hany as [Hc Hcg]. rewrite Hc, Hcg.
      destruct preventReconnect; simpl; rewrite ?Hsk, ?Hc, ?orb_false_r;
        simpl in He1; rewrite ?He1; done.
  - destruct (updateStatus_frame CLOSED w1) as (Hs2 & _ & _ & He2 & Hq2 & Hp2 & Hm2).
    pose proof (updateStatus_status CLOSED w1) as Hst2.
    rewrite Hsk in Hs2.
    destruct preventReconnect; simpl; rewrite ?Hs2, ?Hst2, ?Hq2, ?Hp2, ?Hm2, ?He2, ?He1;
      rewrite ?orb_false_r; repeat split; try done;
      intros [? ?]; done.
Qed.

(** *** [cleanup] *)

Definition is_client_call (e : Effect) : bool :=
  match e with
  | StatusChangeCalled _ _ | OpenCalled _ | CloseCalled _ _
  | ErrorCalled _ _ | MessageCalled _ _ _ => true
  | _ => false
  end.

(** The calls made on the client's callbacks so far. *)
Definition client_calls (w : World) : list Effect :=
  List.filter is_client_call (trace w).

(** No callback is set and the app-state handler is not registered. *)
Definition detached (w : World) : Prop :=
  onMessageCallback w = None ∧ onOpenCallback w = None ∧
  onCloseCallback w = None ∧ onErrorCallback w = None ∧
  onStatusChangeCallback w = None ∧ appStateListener w = false.

(** From a detached service: it is still detached, and no callback was
    called. *)
Definition mute (w w' : World) : Prop :=
  detached w → detached w' ∧ client_calls w' = client_calls w.

Lemma mute_refl (w : World) : mute w w.
Proof. by intros H. Qed.

Lemma mute_trans (w1 w2 w3 : World) : mute w1 w2 → mute w2 w3 → mute w1 w3.
Proof.
  intros H12 H23 H1. destruct (H12 H1) as [H2 Hc2].
  destruct (H23 H2) as [H3 Hc3]. split; [done | congruence].
Qed.

Lemma mute_same (w w' : World) :
  onMessageCallback w' = onMessageCallback w →
  onOpenCallback w' = onOpenCallback w →
  onCloseCallback w' = onCloseCallback w →
  onErrorCallback w' = onErrorCallback w →
  onStatusChangeCallback w' = onStatusChangeCallback w →
  appStateListener w' = appStateListener w →
  trace w' = trace w →
  mute w w'.
Proof.
  intros H1 H2 H3 H4 H5 H6 H7. unfold mute, detached, client_calls.
  by rewrite H1, H2, H3, H4, H5, H6, H7.
Qed.

Lemma mute_updateStatus (st : WebSocketStatus) (w : World) :
  mute w (updateStatus st w).
Proof.
  intros Hd. pose proof Hd as (_ & _ & _ & _ & Hs & _).
  unfold updateStatus. destruct (bool_decide _); [| done].
  simpl. rewrite Hs. done.
Qed.

Lemma mute_handleError (message : string) (w : World) :
  mute w (handleError message w).
Proof.
  intros Hd. pose proof Hd as (_ & _ & _ & He & _).
  unfold handleError. by rewrite He.
Qed.

Lemma mute_log (e : Effect) (w : World) :
  is_client_call e = false → mute w (log e w).
Proof.
  intros He Hd. split; [exact Hd |].
  unfold client_calls, log. simpl. rewrite List.filter_app. simpl.
  rewrite He. apply app_nil_r.
Qed.

Lemma mute_log_quiet (e : Effect) (w : World) : quiet_effect e → mute w (log e w).
Proof. intros He. apply mute_log. by destruct e. Qed.

Ltac mute_base :=
  first
    [ exact mute_refl
    | exact mute_trans
    | exact mute_updateStatus
    | exact mute_handleError
    | exact mute_log_quiet
    | (intros ? ? ? Hcb (_ & _ & Hc & _); congruence)
    | (intros ? ? ? ? Hcb (Hm & _); congruence)
    | (intros; by apply mute_same) ].

Lemma sendMessage_mute (eventName : string) (args : list string) (w : World) :
  mute w (snd (sendMessage eventName args w)).
Proof.
  unfold sendMessage. destruct (socket_connected w).
  - set (w1 := log (SocketEmit (mkMessage eventName args)) w).
    assert (H1 : mute w w1) by (by apply mute_log).
    assert (H2 : mute w match emit_disconnects (lib_emit (length (emitted w))) with
                        | Some reason => lib_fire_disconnect reason w1
                        | None => w1
                        end).
    { destruct (emit_disconnects _); [| done].
      apply (mute_trans w w1); [done |].
      apply (frame_lib_fire_disconnect mute); mute_base. }
    destruct (emit_throws _); simpl; [| done].
    eapply mute_trans; [exact H2 | apply mute_handleError].
  - destruct (queueMessages (options w)); simpl.
    + by apply mute_same.
    + apply mute_handleError.
Qed.

Lemma deliver_mute (e : SocketEvent) (w w' : World) :
  deliver e w = Some w' → mute w w'.
Proof.
  destruct e;
    [| apply (frame_deliver mute); try mute_base; done ..].
  unfold deliver. destruct (socket w) as [sk |]; [| intros [= <-]; apply mute_refl].
  unfold on_connect.
  set (w0 := updateStatus OPEN _).
  assert (H0 : mute w w0).
  { unfold w0. eapply mute_trans; [| apply mute_updateStatus]. by apply mute_same. }
  assert (Hopen : ∀ w1, mute w w1 →
            mute w match onOpenCallback w1 with
                   | Some cb => log (OpenCalled (cb_id cb)) w1
                   | None => w1
                   end).
  { intros w1 H1 Hd. destruct (H1 Hd) as [Hd1 Hc1].
    pose proof Hd1 as (_ & Ho & _). by rewrite Ho. }
  unfold processMessageQueue.
  destruct (queueMessages (options w0) && socket_connected w0).
  - destruct (drain _ w0) as [w1 |] eqn:Hd; simpl; [| done].
    intros [= <-]. apply Hopen.
    revert Hd. apply (drain_preserves (mute w)); [| | done].
    + intros q w2 H2. eapply mute_trans; [exact H2 |]. by apply mute_same.
    + intros ev args w2 H2. eapply mute_trans; [exact H2 |]. apply sendMessage_mute.
  - simpl. intros [= <-]. by apply Hopen.
Qed.

Lemma disconnect_keeps (preventReconnect : bool) (w : World) :
  appStateListener (disconnect preventReconnect w) = appStateListener w ∧
  pendingConnects (disconnect preventReconnect w) = pendingConnects w.
Proof.
  apply (frame_disconnect
           (λ w1 w2, appStateListener w2 = appStateListener w1 ∧
                     pendingConnects w2 = pendingConnects w1)); try done.
  all: first
    [ (intros w1 w2 w3 [? ?] [? ?]; split; congruence)
    | (intros st w1; unfold updateStatus; by ws_cases)
    | (intros message w1; unfold handleError; by ws_cases) ].
Qed.

Lemma cleanup_detached (w : World) :
  detached (cleanup w) ∧ socket (cleanup w) = None ∧ messageQueue (cleanup w) = [].
Proof.
  unfold cleanup, detached. simpl.
  destruct (disconnect_keeps true (set_appStateListener false w)) as [Ha _].
  by destruct (socket (disconnect true (set_appStateListener false w))).
Qed.

(** The setters of the five callbacks. *)
Definition sets_callback (a : Action) : Prop :=
  match a with
  | SetOnMessage _ | SetOnOpen _ | SetOnClose _ | SetOnError _
  | SetOnStatusChange _ => True
  | _ => False
  end.

Lemma step_mute (a : Action) (w w' : World) :
  ¬ sets_callback a → step a w = Some w' → mute w w'.
Proof.
  intros Ha. destruct a; simpl in *; try (intros [= <-]); try done.
  - apply (frame_connect_sync mute); mute_base.
  - apply (frame_connect_resume mute); mute_base.
  - apply sendMessage_mute.
  - apply (frame_disconnect mute); mute_base.
  - intros Hd. split; [apply cleanup_detached |].
    unfold cleanup.
    assert (Hdis : mute w (disconnect true (set_appStateListener false w))).
    { eapply mute_trans; [| apply (frame_disconnect mute); mute_base].
      intros Hd0. split; [| done]. unfold detached in *. simpl. tauto. }
    destruct (Hdis Hd) as [Hd1 Hc1].
    destruct (socket (disconnect true (set_appStateListener false w)));
      [| exact Hc1].
    rewrite <- Hc1. apply (mute_log SocketRemoveAllListeners); done.
  - apply (frame_appStateChanged mute); mute_base.
  - apply deliver_mute.
  - apply (frame_lib_setConnecting mute); mute_base.
Qed.

(** X19. [cleanup()] detaches the service: the socket, the five callbacks
    and the queue are gone and the app-state handler is removed; and in
    every run that follows, as long as the client sets no callback again, no
    callback of the client is called, whatever is connected, sent or
    delivered. A [connect] that was suspended when [cleanup] was called is
    still pending afterwards. *)
Theorem cleanup_silences (w : World) (acts : list Action) :
  Forall (λ a, ¬ sets_callback a) acts →
  socket (cleanup w) = None ∧ messageQueue (cleanup w) = [] ∧
  explicitDisconnect (cleanup w) = true ∧
  pendingConnects (cleanup w) = pendingConnects w ∧
  ∃ w', run acts (cleanup w) = Some w' ∧
        detached w' ∧ client_calls w' = client_calls (cleanup w).
Proof.
  intros Hacts. destruct (cleanup_detached w) as (Hd & Hs & Hq).
  split; [exact Hs |]. split; [exact Hq |].
  assert (He : explicitDisconnect (disconnect true (set_appStateListener false w)) = true)
    by (apply disconnect_explicit; by left).
  destruct (disconnect_keeps true (set_appStateListener false w)) as [_ Hp].
  split; [| split].
  - unfold cleanup. simpl.
    by destruct (socket (disconnect true (set_appStateListener false w))).
  - unfold cleanup. simpl.
    by destruct (socket (disconnect true (set_appStateListener false w))).
  - clear He Hp Hs Hq. revert Hd. generalize (cleanup w). clear w.
    induction acts as [| a acts IH]; intros w Hd; simpl.
    + eauto.
    + apply Forall_cons in Hacts as [Ha Hacts].
      destruct (ws_step_total a w) as [w1 Hstep]. rewrite Hstep. simpl.
      destruct (step_mute a w w1 Ha Hstep Hd) as [Hd1 Hc1].
      destruct (IH Hacts w1 Hd1) as (w' & Hrun & Hd' & Hc').
      exists w'. split; [done |]. split; [done | congruence].
Qed.

(** *** [connect] across its suspension *)

(** The calls made on the socket library so far. *)
Definition library_calls (w : World) : list Effect :=
  List.filter (λ e, negb (is_client_call e)) (trace w).

(** The [auth] option: [{ token }] or [undefined]. *)
Definition auth_of (a : AuthOutcome) : option string :=
  match a with
  | AuthData t => t
  | AuthFailed => None
  end.

Lemma library_calls_log (e : Effect) (w : World) :
  library_calls (log e w)
  = library_calls w ++ (if is_client_call e then [] else [e]).
Proof.
  unfold library_calls, log. simpl. rewrite List.filter_app. simpl.
  by destruct (is_client_call e).
Qed.

(** What [updateStatus] and [handleError] leave alone: everything but the
    status and the calls on the client's callbacks. *)
Definition same_but_status (w w' : World) : Prop :=
  socket w' = socket w ∧ connectionUrl w' = connectionUrl w ∧
  explicitDisconnect w' = explicitDisconnect w ∧
  authToken w' = authToken w ∧ onMessageCallback w' = onMessageCallback w ∧
  pendingConnects w' = pendingConnects w ∧ library_calls w' = library_calls w.

Lemma updateStatus_same_but_status (st : WebSocketStatus) (w : World) :
  same_but_status w (updateStatus st w).
Proof.
  unfold updateStatus. case_bool_decide; [| done].
  destruct (onStatusChangeCallback _); [| done].
  unfold same_but_status. rewrite library_calls_log. simpl.
  by rewrite app_nil_r.
Qed.

Lemma handleError_same (message : string) (w : World) :
  same_but_status w (handleError message w) ∧
  status (handleError message w) = status w.
Proof.
  unfold handleError. destruct (onErrorCallback w); [| done].
  unfold same_but_status. rewrite library_calls_log. simpl.
  by rewrite app_nil_r.
Qed.

Lemma getAuthData_same (w w' : World) :
  authToken w' = authToken w → getAuthData w' = getAuthData w.
Proof. unfold getAuthData. by intros ->. Qed.

(** [connect] on a service without socket that knows its URL, up to the
    suspension. *)
Lemma connect_sync_proceeds (url : option string) (w : World) :
  socket w = None →
  truthy_str (if truthy_str url then url else connectionUrl w) = true →
  let w1 := connect_sync url w in
  status w1 = CONNECTING ∧ explicitDisconnect w1 = false ∧
  socket w1 = None ∧
  connectionUrl w1 = (if truthy_str url then url else connectionUrl w) ∧
  authToken w1 = authToken w ∧ onMessageCallback w1 = onMessageCallback w ∧
  pendingConnects w1 = pendingConnects w ++ [getAuthData w] ∧
  library_calls w1 = library_calls w.
Proof.
  intros Hs Hurl w1. subst w1. unfold connect_sync.
  set (w0 := if truthy_str url then set_connectionUrl url w else w).
  assert (H0 : socket w0 = None ∧
               connectionUrl w0 = (if truthy_str url then url else connectionUrl w) ∧
               explicitDisconnect w0 = explicitDisconnect w ∧
               authToken w0 = authToken w ∧
               onMessageCallback w0 = onMessageCallback w ∧
               pendingConnects w0 = pendingConnects w ∧
               library_calls w0 = library_calls w)
    by (unfold w0; by destruct (truthy_str url)).
  destruct H0 as (Hs0 & Hu0 & He0 & Ha0 & Hm0 & Hp0 & Hl0).
  clearbody w0. rewrite Hu0, Hurl, Hs0. simpl.
  set (w3 := updateStatus CONNECTING (set_explicitDisconnect false w0)).
  pose proof (updateStatus_status CONNECTING (set_explicitDisconnect false w0)) as Hst.
  destruct (updateStatus_same_but_status CONNECTING (set_explicitDisconnect false w0))
    as (Hs3 & Hu3 & He3 & Ha3 & Hm3 & Hp3 & Hl3).
  fold w3 in Hst, Hs3, Hu3, He3, Ha3, Hm3, Hp3, Hl3. simpl in *.
  rewrite (getAuthData_same w w3) by congruence.
  change (library_calls (set_explicitDisconnect false w0))
    with (library_calls w0) in Hl3.
  change (library_calls (set_pendingConnects (pendingConnects w3 ++ [getAuthData w]) w3))
    with (library_calls w3).
  repeat split; congruence.
Qed.

(** The oldest suspended [connect] resuming, [io()] and [socket.connect()]
    going through. *)
Lemma connect_resume_ok (connecting0 : bool) (auth : AuthOutcome)
    (rest : list AuthOutcome) (w : World) :
  pendingConnects w = auth :: rest →
  let w1 := connect_resume (IoOk connecting0) w in
  socket w1 = Some (mkSocket false connecting0
                      (bool_decide (is_Some (onMessageCallback w)))) ∧
  status w1 = status w ∧ explicitDisconnect w1 = explicitDisconnect w ∧
  connectionUrl w1 = connectionUrl w ∧ pendingConnects w1 = rest ∧
  authToken w1 = authToken w ∧ onMessageCallback w1 = onMessageCallback w ∧
  library_calls w1
  = library_calls w ++ [IoCreated (default "" (connectionUrl w)) (auth_of auth);
                        SocketRemoveAllListeners; SocketConnect].
Proof.
  intros Hp w1. subst w1. unfold connect_resume. rewrite Hp.
  set (w2 := match auth with
             | AuthData _ => set_pendingConnects rest w
             | AuthFailed => _
             end).
  assert (H2 : same_but_status (set_pendingConnects rest w) w2 ∧ status w2 = status w).
  { unfold w2. destruct auth; [done |].
    exact (handleError_same _ (set_pendingConnects rest w)). }
  destruct H2 as ((Hs2 & Hu2 & He2 & Ha2 & Hm2 & Hp2 & Hl2) & Hst2).
  clearbody w2. simpl in *.
  change (library_calls (set_pendingConnects rest w)) with (library_calls w) in Hl2.
  rewrite !library_calls_log.
  match goal with
  | |- context [library_calls (set_socket ?x ?w0)] =>
      change (library_calls (set_socket x w0)) with (library_calls w0)
  end.
  rewrite library_calls_log. simpl. rewrite Hl2, Hu2, Hm2, <- !app_assoc. simpl.
  by destruct auth.
Qed.

(** X20. The auth token of a connection is the one set when [connect] was
    called: on a service without socket, [connect(url)] sets the status to
    CONNECTING, clears [explicitDisconnect] and suspends; when it resumes,
    [io()] gets the URL and the token as they were read at the call, even if
    [setAuthToken] was called in between, and the service holds the new
    socket. *)
Theorem connect_token_at_call (url : option string) (w : World)
    (token : option AuthToken) (connecting0 : bool) :
  socket w = None → pendingConnects w = [] → truthy_str url = true →
  let w1 := connect_sync url w in
  let w2 := connect_resume (IoOk connecting0) (setAuthToken token w1) in
  status w1 = CONNECTING ∧ explicitDisconnect w1 = false ∧
  pendingConnects w1 = [getAuthData w] ∧
  library_calls w2
  = library_calls w ++ [IoCreated (default "" url) (auth_of (getAuthData w));
                        SocketRemoveAllListeners; SocketConnect] ∧
  connecting <$> socket w2 = Some connecting0 ∧
  status w2 = CONNECTING ∧ pendingConnects w2 = [].
Proof.
  intros Hs Hp Hurl w1 w2.
  destruct (connect_sync_proceeds url w Hs) as (Hst1 & He1 & Hs1 & Hu1 & Ha1 & Hm1 & Hp1 & Hl1);
    [by rewrite Hurl |].
  fold w1 in Hst1, He1, Hs1, Hu1, Ha1, Hm1, Hp1, Hl1.
  rewrite Hp in Hp1. simpl in Hp1. rewrite Hurl in Hu1.
  destruct (connect_resume_ok connecting0 (getAuthData w) [] (setAuthToken token w1))
    as (Hs2 & Hst2 & _ & _ & Hp2 & _ & _ & Hl2); [exact Hp1 |].
  fold w2 in Hs2, Hst2, Hp2, Hl2.
  change (connectionUrl (setAuthToken token w1)) with (connectionUrl w1) in Hl2.
  change (library_calls (setAuthToken token w1)) with (library_calls w1) in Hl2.
  change (status (setAuthToken token w1)) with (status w1) in Hst2.
  rewrite Hu1, Hl1 in Hl2. rewrite Hs2, Hst2, Hp2, Hl2.
  repeat split; done.
Qed.

(** X21. The guard of [connect] against a connection attempt in progress
    does not see a suspended [connect]: on a service without socket, a
    second [connect] before the first one resumes is let through, and when
    the two resume, [io()] and [socket.connect()] are called twice, both
    times with the URL of the later call, and [disconnect] is called on
    neither socket; the service holds the second socket only. *)
Theorem connect_twice_two_sockets (url url' : option string) (w : World)
    (c1 c2 : bool) :
  socket w = None → pendingConnects w = [] → truthy_str url = true →
  let u := default "" (if truthy_str url' then url' else url) in
  let a := auth_of (getAuthData w) in
  let w2 := connect_sync url' (connect_sync url w) in
  let w4 := connect_resume (IoOk c2) (connect_resume (IoOk c1) w2) in
  length (pendingConnects w2) = 2 ∧
  library_calls w4
  = library_calls w ++ [IoCreated u a; SocketRemoveAllListeners; SocketConnect;
                        IoCreated u a; SocketRemoveAllListeners; SocketConnect] ∧
  connecting <$> socket w4 = Some c2 ∧ pendingConnects w4 = [].
Proof.
  intros Hs Hp Hurl u a w2 w4.
  destruct (connect_sync_proceeds url w Hs) as (_ & _ & Hs1 & Hu1 & Ha1 & _ & Hp1 & Hl1);
    [by rewrite Hurl |].
  rewrite Hp in Hp1. simpl in Hp1. rewrite Hurl in Hu1.
  destruct (connect_sync_proceeds url' (connect_sync url w) Hs1)
    as (_ & _ & Hs2 & Hu2 & Ha2 & _ & Hp2 & Hl2).
  { rewrite Hu1. by destruct (truthy_str url') eqn:Hurl'. }
  fold w2 in Hs2, Hu2, Ha2, Hp2, Hl2.
  rewrite Hp1, (getAuthData_same w (connect_sync url w) Ha1) in Hp2. simpl in Hp2.
  rewrite Hu1 in Hu2. rewrite Hl1 in Hl2.
  destruct (connect_resume_ok c1 (getAuthData w) [getAuthData w] w2 Hp2)
    as (_ & _ & _ & Hu3 & Hp3 & _ & _ & Hl3).
  destruct (connect_resume_ok c2 (getAuthData w) [] _ Hp3)
    as (Hs4 & _ & _ & _ & Hp4 & _ & _ & Hl4).
  fold w4 in Hs4, Hp4, Hl4.
  rewrite Hu3, Hl3, Hu2, Hl2, <- app_assoc in Hl4.
  split; [by rewrite Hp2 |]. split; [exact Hl4 |].
  by rewrite Hs4, Hp4.
Qed.

End WithLibrary.

(** *** A session *)

(** A socket library on which every emit goes through. *)
Definition lib_quiet : nat → EmitOutcome := λ _, emit_ok.

(** A socket library that loses the connection inside its first emit (the
    emit itself returns normally). *)
Definition lib_drop_first : nat → EmitOutcome :=
  λ n, match n with
       | O => mkEmitOutcome None (Some "transport close")
       | S _ => emit_ok
       end.

(** A socket library whose first emit throws while the connection drops. *)
Definition lib_throw_first : nat → EmitOutcome :=
  λ n, match n with
       | O => mkEmitOutcome (Some "write failed") (Some "transport error")
       | S _ => emit_ok
       end.

Definition idle : World := new (Some "https://socket.test") no_options.

(** [connect()] was called and has resumed: a socket exists, not yet
    connected. *)
Definition dialing : World := connect_resume (IoOk true) (connect_sync None idle).

(** Two events sent while dialing. *)
Definition ping : Message := mkMessage "client:ping" ["1"].
Definition chat : Message := mkMessage "send_message" ["hello"].

Definition backlog (lib_emit : nat → EmitOutcome) : World :=
  snd (sendMessage lib_emit "send_message" ["hello"]
         (snd (sendMessage lib_emit "client:ping" ["1"] dialing))).

(** The service once the socket reported 'connect'. *)
Definition online : World :=
  default idle (deliver lib_quiet EvConnect dialing).

(** The connection of [online] was lost (not by a call of [disconnect]). *)
Definition offline : World := lib_fire_disconnect "transport close" online.

Example backlog_queue :
  messageQueue (backlog lib_quiet) = [ping; chat] ∧
  emitted (backlog lib_quiet) = [].
Proof. split; reflexivity. Qed.

Example backlog_drained :
  (λ w, (messageQueue w, emitted w)) <$> deliver lib_quiet EvConnect (backlog lib_quiet)
  = Some ([], [ping; chat]).
Proof. reflexivity. Qed.

(** The connection is lost inside the emit of [ping], which returns
    normally: [chat] goes back to the front of the queue, and a second copy
    of it is left at the back by the [sendMessage] call that failed. *)
Example backlog_dropped_after_emit :
  (λ w, (messageQueue w, emitted w))
    <$> deliver lib_drop_first EvConnect (backlog lib_drop_first)
  = Some ([chat; chat], [ping]).
Proof. reflexivity. Qed.

Example backlog_dropped_in_throw :
  (λ w, (messageQueue w, emitted w))
    <$> deliver lib_throw_first EvConnect (backlog lib_throw_first)
  = Some ([ping; chat], [ping]).
Proof. reflexivity. Qed.

Lemma dialing_reachable (lib_emit : nat → EmitOutcome) : reachable lib_emit dialing.
Proof.
  apply (reachable_step lib_emit (ConnectResume (IoOk true)) (connect_sync None idle));
    [| vm_compute; reflexivity].
  apply (reachable_step lib_emit (Connect None) idle); [| vm_compute; reflexivity].
  apply reachable_new.
Qed.

Lemma online_reachable : reachable lib_quiet online.
Proof.
  apply (reachable_step lib_quiet (SocketEvt EvConnect) dialing);
    [apply dialing_reachable | vm_compute; reflexivity].
Qed.

(** [online] with a status callback registered. *)
Definition watched : World := snd (setOnStatusChange (mkCallback 7 false) online).

Lemma status_callback_protocol_witness :
  trace (snd (setOnStatusChange (mkCallback 7 false) idle))
    = [StatusChangeCalled 7 CLOSED] ∧
  trace (updateStatus OPEN (snd (setOnStatusChange (mkCallback 7 false) idle)))
    = [StatusChangeCalled 7 CLOSED; StatusChangeCalled 7 OPEN] ∧
  updateStatus CLOSED (snd (setOnStatusChange (mkCallback 7 false) idle))
    = snd (setOnStatusChange (mkCallback 7 false) idle) ∧
  ∃ w', run lib_quiet [Disconnect true; AppStateChange active] watched = Some w' ∧
        ∃ l, notified w' = notified watched ++ l ∧ changes OPEN l (status w').
Proof.
  destruct (status_callback_protocol lib_quiet (mkCallback 7 false) OPEN
              (snd (setOnStatusChange (mkCallback 7 false) idle)))
    as (_ & Hchange & _ & _).
  destruct (status_callback_protocol lib_quiet (mkCallback 7 false) CLOSED
              (snd (setOnStatusChange (mkCallback 7 false) idle)))
    as (_ & _ & Hsame & _).
  destruct (status_callback_protocol lib_quiet (mkCallback 7 false) CLOSED idle)
    as ((_ & _ & Hreg) & _ & _ & _).
  destruct (status_callback_protocol lib_quiet (mkCallback 7 false) OPEN watched)
    as (_ & _ & _ & Hrun).
  split; [exact Hreg |].
  split; [| split; [apply Hsame; reflexivity |]].
  - destruct Hchange as (_ & Htrace & _); [reflexivity | discriminate |].
    exact Htrace.
  - eexists. split; [reflexivity |].
    refine (proj2 (Hrun [Disconnect true; AppStateChange active] _ eq_refl _ eq_refl)).
    repeat constructor; simpl; tauto.
Defined.

Lemma connect_when_connected_witness :
  connect_sync (Some "https://other.test") online
    = set_connectionUrl (Some "https://other.test") online ∧
  status (connect_sync (Some "https://other.test") online) = OPEN ∧
  connect_sync None online = online.
Proof.
  destruct (connect_when_connected lib_quiet (Some "https://other.test") online
              (mkSocket true false false) online_reachable eq_refl eq_refl)
    as (Heq & _ & Hst & _).
  destruct (connect_when_connected lib_quiet None online
              (mkSocket true false false) online_reachable eq_refl eq_refl)
    as (Heq' & _).
  split; [exact Heq |]. split; [rewrite Hst; reflexivity | exact Heq'].
Defined.


Example watched_disconnect_notified :
  notified <$> run lib_quiet [Disconnect true; AppStateChange active] watched
  = Some [OPEN; CLOSING; CLOSED].
Proof. reflexivity. Qed.

Example offline_active_reconnects :
  (λ w, (status w, pendingConnects w, explicitDisconnect w))
    (appStateChanged active offline)
  = (CONNECTING, [AuthData None], false).
Proof. reflexivity. Qed.



(** *** The further properties, on the sessions above *)

Lemma no_event_lost_witness :
  ∃ w', run lib_quiet [SendMessage "send_message" ["hello"]; Connect None] idle
        = Some w' ∧
        (chat ∈ emitted w' ∨ chat ∈ messageQueue w').
Proof.
  exists (connect_sync None (snd (sendMessage lib_quiet "send_message" ["hello"] idle))).
  split; [reflexivity |].
  apply (no_event_lost lib_quiet
           [SendMessage "send_message" ["hello"]; Connect None] idle _
           "send_message" ["hello"]).
  - reflexivity.
  - intros Hin. apply elem_of_cons in Hin as [Heq | Hin]; [discriminate |].
    apply elem_of_cons in Hin as [Heq | Hin]; [discriminate |].
    by apply elem_of_nil in Hin.
  - reflexivity.
  - apply list_elem_of_here.
Defined.

Lemma cleanup_silences_witness :
  ∃ w', run lib_quiet [Connect None; ConnectResume (IoOk true); SocketEvt EvConnect]
            (cleanup watched) = Some w' ∧
        client_calls w' = client_calls (cleanup watched).
Proof.
  destruct (cleanup_silences lib_quiet watched
              [Connect None; ConnectResume (IoOk true); SocketEvt EvConnect])
    as (_ & _ & _ & _ & w' & Hrun & _ & Hcalls).
  - repeat constructor; simpl; tauto.
  - exists w'. split; [exact Hrun | exact Hcalls].
Defined.

Lemma connect_token_at_call_witness :
  library_calls
    (connect_resume (IoOk true)
       (setAuthToken (Some (TokenString "later"))
          (connect_sync (Some "https://socket.test/v2") idle)))
  = [IoCreated "https://socket.test/v2" None; SocketRemoveAllListeners; SocketConnect].
Proof.
  apply (connect_token_at_call (Some "https://socket.test/v2") idle
           (Some (TokenString "later")) true);
    reflexivity.
Defined.

Lemma connect_twice_two_sockets_witness :
  length (pendingConnects (connect_sync None (connect_sync (Some "https://socket.test") idle)))
  = 2.
Proof.
  apply (connect_twice_two_sockets (Some "https://socket.test") None idle true true);
    reflexivity.
Defined.

End WebSocketService.
